(** * atomic-bloom: a Bloom filter over an atomic bitset

    Shallow embedding of [bloom.go] and of the atomic bitset it is built on,
    for sequential (single-caller) executions.

    Conventions of the embedding.
    - Go's [uint] and [uint64] are 64-bit unsigned integers (a 64-bit
      platform): a value is a [Z] in [0, 2^64) and every arithmetic result is
      reduced by [uint64].  [int64] values are [Z] in [-2^63, 2^63), reduced
      by [int64].
    - A method that mutates its receiver returns the new receiver.
    - A run-time panic (integer division by zero, index out of range, [make]
      with a length that does not fit [int]) is the outcome [Panic]; running
      out of memory is not modelled.
    - A Go [error] value is an [option error], [None] being [nil].
    - A byte stream is the list of bytes still to be read ([io.Reader]) or
      written so far ([io.Writer] backed by a buffer, whose writes succeed).
    - The murmur digest behind [baseHashes] is not part of this file of the
      repository: [baseHashes] is a parameter of the development. *)

From Stdlib Require Import ZArith Lia List Bool.
From Stdlib.Strings Require Import Byte.
From stdpp Require Import base option list.
Import ListNotations.
Local Open Scope Z_scope.

(** ** Machine integers *)

Definition uint64 (z : Z) : Z := z mod 2 ^ 64.
Definition int64 (z : Z) : Z := (z + 2 ^ 63) mod 2 ^ 64 - 2 ^ 63.

Definition is_uint64 (z : Z) : bool := (0 <=? z) && (z <? 2 ^ 64).
Definition is_int64 (z : Z) : bool := (- 2 ^ 63 <=? z) && (z <? 2 ^ 63).

(** ** Outcomes *)

Inductive panic : Type :=
| DivideByZero
| IndexOutOfRange
| MakeSliceLenOutOfRange.

Inductive result (A : Type) : Type :=
| Ok (a : A)
| Panic (p : panic).
Arguments Ok {A} a.
Arguments Panic {A} p.

#[global] Instance result_ret : MRet result := fun A a => Ok a.
#[global] Instance result_bind : MBind result := fun A B f r =>
  match r with
  | Ok a => f a
  | Panic p => Panic p
  end.

Inductive field : Type := FieldM | FieldK.

Inductive error : Type :=
| EOF
| ErrUnexpectedEOF
| ErrDontMatch (which : field) (fv gv : Z).

(** ** The atomic bitset *)

Record atomicBitSet : Type := mkBitSet {
  bs_data : list Z;
  bs_size : Z
}.

Definition newAtomicBitSet (size : Z) : atomicBitSet :=
  let numInts := uint64 (size + 63) / 64 in
  {| bs_data := replicate (Z.to_nat numInts) 0; bs_size := size |}.

Fixpoint fromAtomicBitSet_loop (i : nat) (vs : list Z) (ws : list Z) : list Z :=
  match vs with
  | [] => ws
  | v :: vs' =>
      fromAtomicBitSet_loop (S i) vs'
        (if (i <? length ws)%nat then <[i := v]> ws else ws)
  end.

Definition fromAtomicBitSet (data : list Z) (size : Z) : atomicBitSet :=
  let abs := newAtomicBitSet size in
  {| bs_data := fromAtomicBitSet_loop 0 data (bs_data abs);
     bs_size := bs_size abs |}.

Definition bit_mask (pos : Z) : Z := int64 (Z.shiftl 1 pos).

Definition bs_Set (bs : atomicBitSet) (i : Z) : result atomicBitSet :=
  if bs_size bs <=? i then Ok bs
  else
    let index := Z.to_nat (i / 64) in
    let pos := i mod 64 in
    let mask := bit_mask pos in
    match bs_data bs !! index with
    | Some w => Ok {| bs_data := <[index := Z.lor w mask]> (bs_data bs);
                      bs_size := bs_size bs |}
    | None => Panic IndexOutOfRange
    end.

Definition bs_Test (bs : atomicBitSet) (i : Z) : result bool :=
  if bs_size bs <=? i then Ok false
  else
    let index := Z.to_nat (i / 64) in
    let pos := i mod 64 in
    let mask := bit_mask pos in
    match bs_data bs !! index with
    | Some w => Ok (negb (Z.land w mask =? 0))
    | None => Panic IndexOutOfRange
    end.

Definition bs_ClearAll (bs : atomicBitSet) : atomicBitSet :=
  {| bs_data := map (fun _ => 0) (bs_data bs); bs_size := bs_size bs |}.

(** After the guard on the two lengths the indexed reads of [Equal] are in
    range, so the comparison walks the two word lists together. *)
Fixpoint words_equal (ws os : list Z) : bool :=
  match ws, os with
  | w :: ws', o :: os' => if w =? o then words_equal ws' os' else false
  | _, _ => true
  end.

Definition bs_Equal (bs other : atomicBitSet) : bool :=
  if negb (bs_size bs =? bs_size other)
     || negb (length (bs_data bs) =? length (bs_data other))%nat
  then false
  else words_equal (bs_data bs) (bs_data other).

Fixpoint InPlaceUnion_loop (n i : nat) (ws os : list Z) : result (list Z) :=
  match n with
  | O => Ok ws
  | S n' =>
      match ws !! i, os !! i with
      | Some w, Some o => InPlaceUnion_loop n' (S i) (<[i := Z.lor w o]> ws) os
      | _, _ => Panic IndexOutOfRange
      end
  end.

Definition bs_InPlaceUnion (bs other : atomicBitSet) : result atomicBitSet :=
  ws ← InPlaceUnion_loop (length (bs_data bs)) 0 (bs_data bs) (bs_data other);
  Ok {| bs_data := ws; bs_size := bs_size bs |}.

(** ** Big-endian 64-bit values on a byte stream ([encoding/binary]) *)

Definition byte_of_Z (z : Z) : byte :=
  match Byte.of_N (Z.to_N (z mod 256)) with
  | Some b => b
  | None => x00
  end.

Definition Z_of_byte (b : byte) : Z := Z.of_N (Byte.to_N b).

(** [binary.BigEndian.PutUint64] *)
Definition PutUint64 (v : Z) : list byte :=
  [ byte_of_Z (Z.shiftr v 56); byte_of_Z (Z.shiftr v 48);
    byte_of_Z (Z.shiftr v 40); byte_of_Z (Z.shiftr v 32);
    byte_of_Z (Z.shiftr v 24); byte_of_Z (Z.shiftr v 16);
    byte_of_Z (Z.shiftr v 8); byte_of_Z v ].

(** [binary.BigEndian.Uint64] on the eight bytes [b0 .. b7] *)
Definition Uint64 (b0 b1 b2 b3 b4 b5 b6 b7 : byte) : Z :=
  Z.lor (Z_of_byte b7)
   (Z.lor (Z.shiftl (Z_of_byte b6) 8)
    (Z.lor (Z.shiftl (Z_of_byte b5) 16)
     (Z.lor (Z.shiftl (Z_of_byte b4) 24)
      (Z.lor (Z.shiftl (Z_of_byte b3) 32)
       (Z.lor (Z.shiftl (Z_of_byte b2) 40)
        (Z.lor (Z.shiftl (Z_of_byte b1) 48)
               (Z.shiftl (Z_of_byte b0) 56))))))).

(** [binary.Write(stream, binary.BigEndian, v)] for a 64-bit [v] (signed or
    not: the eight bytes are those of [uint64 v]), on a buffer. *)
Definition binary_Write (stream : list byte) (v : Z) : list byte :=
  stream ++ PutUint64 (uint64 v).

Inductive read_result : Type :=
| ReadOk (v : Z) (rest : list byte)
| ReadErr (e : error).

(** [binary.Read(stream, binary.BigEndian, &v)] for a 64-bit [v]: the raw
    unsigned value of the next eight bytes.  It fails with [io.EOF] on an
    exhausted stream and with [io.ErrUnexpectedEOF] on one to seven bytes. *)
Definition binary_Read (stream : list byte) : read_result :=
  match stream with
  | b0 :: b1 :: b2 :: b3 :: b4 :: b5 :: b6 :: b7 :: rest =>
      ReadOk (Uint64 b0 b1 b2 b3 b4 b5 b6 b7) rest
  | [] => ReadErr EOF
  | _ => ReadErr ErrUnexpectedEOF
  end.

(** ** Serialization of the bitset *)

Fixpoint bs_WriteTo_loop (ws : list Z) (stream : list byte) (totalBytes : Z)
  : list byte * Z :=
  match ws with
  | [] => (stream, totalBytes)
  | val :: ws' =>
      bs_WriteTo_loop ws' (binary_Write stream val) (int64 (totalBytes + 8))
  end.

Definition bs_WriteTo (bs : atomicBitSet) (stream : list byte)
  : list byte * Z * option error :=
  let stream := binary_Write stream (bs_size bs) in
  let totalBytes := 8 in
  let dataLen := uint64 (Z.of_nat (length (bs_data bs))) in
  let stream := binary_Write stream dataLen in
  let totalBytes := int64 (totalBytes + 8) in
  let '(stream, totalBytes) := bs_WriteTo_loop (bs_data bs) stream totalBytes in
  (stream, totalBytes, None).

Fixpoint bs_ReadFrom_loop (n i : nat) (ws : list Z) (stream : list byte)
    (totalBytes : Z) : list Z * list byte * Z * option error :=
  match n with
  | O => (ws, stream, totalBytes, None)
  | S n' =>
      match binary_Read stream with
      | ReadErr e => (ws, [], totalBytes, Some e)
      | ReadOk val rest =>
          bs_ReadFrom_loop n' (S i) (<[i := int64 val]> ws) rest
            (int64 (totalBytes + 8))
      end
  end.

Definition bs_ReadFrom (bs : atomicBitSet) (stream : list byte)
  : result (atomicBitSet * list byte * Z * option error) :=
  match binary_Read stream with
  | ReadErr e => Ok (bs, [], 0, Some e)
  | ReadOk size stream =>
      let bs := {| bs_data := bs_data bs; bs_size := size |} in
      match binary_Read stream with
      | ReadErr e => Ok (bs, [], 8, Some e)
      | ReadOk dataLen stream =>
          if 2 ^ 63 <=? dataLen then Panic MakeSliceLenOutOfRange
          else
            let n := Z.to_nat dataLen in
            let '(ws, stream, totalBytes, err) :=
              bs_ReadFrom_loop n 0 (replicate n 0) stream 16 in
            Ok ({| bs_data := ws; bs_size := size |}, stream, totalBytes, err)
      end
  end.

(** ** The Bloom filter *)

Record BloomFilter : Type := mkBloomFilter {
  bf_m : Z;
  bf_k : Z;
  bf_b : atomicBitSet
}.

Definition max (x y : Z) : Z := if y <? x then x else y.

Definition New (m k : Z) : BloomFilter :=
  let m := max 1 m in
  let k := max 1 k in
  {| bf_m := m; bf_k := k; bf_b := newAtomicBitSet m |}.

Definition FromWithM (data : list Z) (m k : Z) : BloomFilter :=
  let k := max 1 k in
  {| bf_m := m; bf_k := k; bf_b := fromAtomicBitSet data m |}.

Definition From (data : list Z) (k : Z) : BloomFilter :=
  let m := uint64 (int64 (Z.of_nat (length data) * 64)) in
  FromWithM data m k.

(** The four base hash values, [[4]uint64]. *)
Definition hashes : Type := (Z * Z * Z * Z)%type.

(** [h[j]]; the indices that [location] computes are 0, 1, 2 or 3. *)
Definition h_at (h : hashes) (j : Z) : Z :=
  let '(h0, h1, h2, h3) := h in
  if j =? 0 then h0 else if j =? 1 then h1 else if j =? 2 then h2 else h3.

Definition location (h : hashes) (i : Z) : Z :=
  let ii := uint64 i in
  uint64 (h_at h (ii mod 2)
          + uint64 (ii * h_at h (2 + (uint64 (ii + ii mod 2) mod 4) / 2))).

Definition bf_location (f : BloomFilter) (h : hashes) (i : Z) : result Z :=
  if uint64 (bf_m f) =? 0 then Panic DivideByZero
  else Ok (uint64 (location h i mod uint64 (bf_m f))).

Definition Cap (f : BloomFilter) : Z := bf_m f.
Definition K (f : BloomFilter) : Z := bf_k f.
Definition BitSet (f : BloomFilter) : atomicBitSet := bf_b f.

Definition with_b (f : BloomFilter) (b : atomicBitSet) : BloomFilter :=
  {| bf_m := bf_m f; bf_k := bf_k f; bf_b := b |}.

(** The loop [for i := uint(0); i < f.k; i++] runs [f.k] times; [n] counts
    the iterations left and [i] is the loop variable. *)
Fixpoint AddHash_loop (h : hashes) (n : nat) (i : Z) (f : BloomFilter)
  : result BloomFilter :=
  match n with
  | O => Ok f
  | S n' =>
      l ← bf_location f h i;
      b ← bs_Set (bf_b f) l;
      AddHash_loop h n' (i + 1) (with_b f b)
  end.

Definition AddHash (f : BloomFilter) (h : hashes) : result BloomFilter :=
  AddHash_loop h (Z.to_nat (bf_k f)) 0 f.

Fixpoint TestHash_loop (h : hashes) (n : nat) (i : Z) (f : BloomFilter)
  : result bool :=
  match n with
  | O => Ok true
  | S n' =>
      l ← bf_location f h i;
      t ← bs_Test (bf_b f) l;
      if negb t then Ok false else TestHash_loop h n' (i + 1) f
  end.

Definition TestHash (f : BloomFilter) (h : hashes) : result bool :=
  TestHash_loop h (Z.to_nat (bf_k f)) 0 f.

Fixpoint TestAndAdd_loop (h : hashes) (n : nat) (i : Z) (present : bool)
    (f : BloomFilter) : result (bool * BloomFilter) :=
  match n with
  | O => Ok (present, f)
  | S n' =>
      l ← bf_location f h i;
      t ← bs_Test (bf_b f) l;
      let present := if negb t then false else present in
      b ← bs_Set (bf_b f) l;
      TestAndAdd_loop h n' (i + 1) present (with_b f b)
  end.

Fixpoint TestOrAdd_loop (h : hashes) (n : nat) (i : Z) (present : bool)
    (f : BloomFilter) : result (bool * BloomFilter) :=
  match n with
  | O => Ok (present, f)
  | S n' =>
      l ← bf_location f h i;
      t ← bs_Test (bf_b f) l;
      if negb t then
        b ← bs_Set (bf_b f) l;
        TestOrAdd_loop h n' (i + 1) false (with_b f b)
      else TestOrAdd_loop h n' (i + 1) present f
  end.

Definition Merge (f g : BloomFilter) : result (option error * BloomFilter) :=
  if negb (bf_m f =? bf_m g) then
    Ok (Some (ErrDontMatch FieldM (bf_m f) (bf_m g)), f)
  else if negb (bf_k f =? bf_k g) then
    Ok (Some (ErrDontMatch FieldK (bf_k f) (bf_k g)), f)
  else
    b ← bs_InPlaceUnion (bf_b f) (bf_b g);
    Ok (None, with_b f b).

Definition ClearAll (f : BloomFilter) : BloomFilter :=
  with_b f (bs_ClearAll (bf_b f)).

Definition Equal (f g : BloomFilter) : bool :=
  (bf_m f =? bf_m g) && (bf_k f =? bf_k g) && bs_Equal (bf_b f) (bf_b g).

Definition WriteTo (f : BloomFilter) (stream : list byte)
  : list byte * Z * option error :=
  let stream := binary_Write stream (uint64 (bf_m f)) in
  let totalBytes := 8 in
  let stream := binary_Write stream (uint64 (bf_k f)) in
  let totalBytes := int64 (totalBytes + 8) in
  let '(stream, numBytes, err) := bs_WriteTo (bf_b f) stream in
  (stream, int64 (totalBytes + numBytes), err).

Definition ReadFrom (f : BloomFilter) (stream : list byte)
  : result (BloomFilter * list byte * Z * option error) :=
  match binary_Read stream with
  | ReadErr e => Ok (f, [], 0, Some e)
  | ReadOk m stream =>
      let f := {| bf_m := uint64 m; bf_k := bf_k f; bf_b := bf_b f |} in
      match binary_Read stream with
      | ReadErr e => Ok (f, [], 8, Some e)
      | ReadOk k stream =>
          let f := {| bf_m := bf_m f; bf_k := uint64 k; bf_b := bf_b f |} in
          let totalBytes := int64 (8 + 8) in
          '(b, stream, numBytes, err) ←
             bs_ReadFrom {| bs_data := []; bs_size := 0 |} stream;
          Ok (with_b f b, stream, int64 (totalBytes + numBytes), err)
      end
  end.

Definition MarshalBinary (f : BloomFilter) : list byte * option error :=
  let '(buf, _, err) := WriteTo f [] in
  match err with
  | Some e => ([], Some e)
  | None => (buf, None)
  end.

Definition UnmarshalBinary (f : BloomFilter) (data : list byte)
  : result (BloomFilter * option error) :=
  '(f, _, _, err) ← ReadFrom f data;
  Ok (f, err).

Section Keys.

(** [baseHashes]: the four murmur hash values of a key. *)
Variable baseHashes : list byte -> hashes.

Definition Add (f : BloomFilter) (data : list byte) : result BloomFilter :=
  let h := baseHashes data in
  AddHash_loop h (Z.to_nat (bf_k f)) 0 f.

Definition Test (f : BloomFilter) (data : list byte) : result bool :=
  let h := baseHashes data in
  TestHash_loop h (Z.to_nat (bf_k f)) 0 f.

Definition TestAndAdd (f : BloomFilter) (data : list byte)
  : result (bool * BloomFilter) :=
  let h := baseHashes data in
  TestAndAdd_loop h (Z.to_nat (bf_k f)) 0 true f.

Definition TestOrAdd (f : BloomFilter) (data : list byte)
  : result (bool * BloomFilter) :=
  let h := baseHashes data in
  TestOrAdd_loop h (Z.to_nat (bf_k f)) 0 true f.

End Keys.

Section Estimates.

(** [EstimateParameters] computes in [float64]; [NewWithEstimates] only
    hands its two results to [New]. *)
Variable float64 : Type.
Variable EstimateParameters : Z -> float64 -> Z * Z.

Definition NewWithEstimates (n : Z) (fp : float64) : BloomFilter :=
  let '(m, k) := EstimateParameters n fp in
  New m k.

End Estimates.

(** ** Abstract view and invariants *)

(** A [Z] is an [int64] exactly when its bits from 63 on repeat the sign. *)
Definition sign_extended (z : Z) : Prop :=
  forall q, 63 <= q -> Z.testbit z q = Z.testbit z 63.

(** Bit [j] of the bitset, as stored: bit [j mod 64] of word [j / 64]. *)
Definition bs_bit (bs : atomicBitSet) (j : Z) : bool :=
  match bs_data bs !! Z.to_nat (j / 64) with
  | Some w => Z.testbit w (j mod 64)
  | None => false
  end.

(** The words are [int64] values. *)
Definition words_typed (ws : list Z) : bool := forallb is_int64 ws.

Definition words_ok (ws : list Z) : Prop :=
  Forall (fun w => - 2 ^ 63 <= w < 2 ^ 63) ws.

(** The data model of the bitset: [size] is a [uint] and the word array has
    [ceil(size / 64)] words. *)
Definition bs_wf (bs : atomicBitSet) : bool :=
  is_uint64 (bs_size bs)
  && ((bs_size bs + 63) / 64 =? Z.of_nat (length (bs_data bs)))
  && words_typed (bs_data bs).

(** The data model of the filter: [m >= 1], [k] is a [uint], and the bitset
    has [m] bits. *)
Definition wf (f : BloomFilter) : bool :=
  is_uint64 (bf_m f) && (1 <=? bf_m f) && is_uint64 (bf_k f)
  && (bs_size (bf_b f) =? bf_m f) && bs_wf (bf_b f).

(** Bits only get set: every bit of [f] is a bit of [f']. *)
Definition bits_kept (f f' : BloomFilter) : Prop :=
  forall j, 0 <= j -> bs_bit (bf_b f) j = true -> bs_bit (bf_b f') j = true.

(** The bit indices of probes [i], [i + 1], ..., [i + n - 1] in a filter of
    [m] bits. *)
Fixpoint probes (h : hashes) (m : Z) (n : nat) (i : Z) : list Z :=
  match n with
  | O => []
  | S n' => location h i mod m :: probes h m n' (i + 1)
  end.

(** The probe formula in the words of the specification, over the integers,
    reduced to 64 bits at the end. *)
Definition location_spec (h : hashes) (i : Z) : Z :=
  (h_at h (i mod 2) + i * h_at h (2 + ((i + i mod 2) mod 4) / 2)) mod 2 ^ 64.

(** ** The wire format

    [BloomFilter := m:uint64 || k:uint64 || BitSet] and
    [BitSet := size:uint64 || wordCount:uint64 || word...], big-endian, the
    words as the eight bytes of their two's complement. *)

Definition wire_words (ws : list Z) : list byte :=
  flat_map (fun w => PutUint64 (uint64 w)) ws.

Definition wire_BitSet (size : Z) (ws : list Z) : list byte :=
  PutUint64 size ++ PutUint64 (Z.of_nat (length ws)) ++ wire_words ws.

Definition wire_BloomFilter (m k size : Z) (ws : list Z) : list byte :=
  PutUint64 m ++ PutUint64 k ++ wire_BitSet size ws.

(** The fields of a filter hold values of their Go types; the length of the
    word slice is an [int]. *)
Definition bf_typed (f : BloomFilter) : bool :=
  is_uint64 (bf_m f) && is_uint64 (bf_k f) && is_uint64 (bs_size (bf_b f))
  && words_typed (bs_data (bf_b f))
  && (Z.of_nat (length (bs_data (bf_b f))) <? 2 ^ 63).

(** A stand-in for the murmur digest, to run the operations on concrete
    keys. *)
Definition sample_hashes (data : list byte) : hashes :=
  let s := fold_left (fun acc b => acc * 31 + Z_of_byte b) data 7 in
  (uint64 s, uint64 (s * 2654435761), uint64 (s + 40503), uint64 (s * s + 1)).

Section Histories.

Variable baseHashes : list byte -> hashes.

(** The mutating operations that may follow an [Add]. *)
Inductive op : Type :=
| OpAdd (data : list byte)
| OpTestAndAdd (data : list byte)
| OpTestOrAdd (data : list byte)
| OpMerge (g : BloomFilter).

Definition run_op (f : BloomFilter) (o : op) : result BloomFilter :=
  match o with
  | OpAdd data => Add baseHashes f data
  | OpTestAndAdd data => r ← TestAndAdd baseHashes f data; Ok (snd r)
  | OpTestOrAdd data => r ← TestOrAdd baseHashes f data; Ok (snd r)
  | OpMerge g => r ← Merge f g; Ok (snd r)
  end.

Fixpoint run_ops (f : BloomFilter) (os : list op) : result BloomFilter :=
  match os with
  | [] => Ok f
  | o :: os' => f' ← run_op f o; run_ops f' os'
  end.

Definition op_wf (o : op) : bool :=
  match o with
  | OpMerge g => wf g
  | _ => true
  end.

End Histories.

(** Closed comparisons of integers, by evaluation. *)
Ltac by_eval :=
  repeat split;
  first [ apply Forall_nil_2 | vm_compute; first [reflexivity | discriminate] ].

(** ** The rest of the interface *)

(** [Copy]: a fresh filter from [New], then the words stored one by one. *)
Fixpoint Copy_loop (n i : nat) (src dst : list Z) : result (list Z) :=
  match n with
  | O => Ok dst
  | S n' =>
      match src !! i, dst !! i with
      | Some v, Some _ => Copy_loop n' (S i) src (<[i := v]> dst)
      | _, _ => Panic IndexOutOfRange
      end
  end.

Definition Copy (f : BloomFilter) : result BloomFilter :=
  let fc := New (bf_m f) (bf_k f) in
  ws ← Copy_loop (length (bs_data (bf_b f))) 0
         (bs_data (bf_b f)) (bs_data (bf_b fc));
  Ok (with_b fc {| bs_data := ws; bs_size := bs_size (bf_b fc) |}).



(** [math/bits.OnesCount64]: the number of one bits of a 64-bit value;
    [ones n x] counts those among the lowest [n] bits. *)
Fixpoint ones (n : nat) (x : Z) : Z :=
  match n with
  | O => 0
  | S n' => Z.b2z (Z.testbit x (Z.of_nat n')) + ones n' x
  end.

Definition OnesCount64 (x : Z) : Z := ones 64 x.

Definition bs_Count (bs : atomicBitSet) : Z :=
  fold_left (fun count w => uint64 (count + OnesCount64 (uint64 w)))
    (bs_data bs) 0.

(** [GobEncode] and [GobDecode] have the bodies of [MarshalBinary] and
    [UnmarshalBinary]. *)
Definition GobEncode (f : BloomFilter) : list byte * option error :=
  let '(buf, _, err) := WriteTo f [] in
  match err with
  | Some e => ([], Some e)
  | None => (buf, None)
  end.

Definition GobDecode (f : BloomFilter) (data : list byte)
  : result (BloomFilter * option error) :=
  '(f, _, _, err) ← ReadFrom f data;
  Ok (f, err).

Section Keys_more.

Variable baseHashes : list byte -> hashes.


End Keys_more.

(** The number of one bits of all the words, over the integers. *)
Definition ones_total (ws : list Z) : Z :=
  fold_right (fun w s => OnesCount64 (uint64 w) + s) 0 ws.

(** * Properties *)

(** ** Machine integers and bits *)

Lemma is_uint64_spec z : is_uint64 z = true <-> 0 <= z < 2 ^ 64.
Proof. unfold is_uint64. rewrite andb_true_iff, Z.leb_le, Z.ltb_lt. tauto. Qed.

Lemma is_int64_spec z : is_int64 z = true <-> - 2 ^ 63 <= z < 2 ^ 63.
Proof. unfold is_int64. rewrite andb_true_iff, Z.leb_le, Z.ltb_lt. tauto. Qed.

Lemma uint64_id z : 0 <= z < 2 ^ 64 -> uint64 z = z.
Proof. intros H. unfold uint64. apply Z.mod_small; lia. Qed.

Lemma uint64_range z : 0 <= uint64 z < 2 ^ 64.
Proof. unfold uint64. apply Z.mod_pos_bound. lia. Qed.

Lemma int64_id z : - 2 ^ 63 <= z < 2 ^ 63 -> int64 z = z.
Proof. intros H. unfold int64. rewrite Z.mod_small; lia. Qed.

Lemma int64_range z : - 2 ^ 63 <= int64 z < 2 ^ 63.
Proof.
  unfold int64. pose proof (Z.mod_pos_bound (z + 2 ^ 63) (2 ^ 64)). lia.
Qed.

Lemma int64_uint64 z : - 2 ^ 63 <= z < 2 ^ 63 -> int64 (uint64 z) = z.
Proof.
  intros H. unfold int64, uint64.
  rewrite Zplus_mod_idemp_l. rewrite Z.mod_small; lia.
Qed.


Lemma small_bits_false z q : 0 <= z < 2 ^ 63 -> 63 <= q -> Z.testbit z q = false.
Proof.
  intros Hz Hq. apply Z.testbit_false; [lia|].
  rewrite Z.div_small; [reflexivity|].
  split; [lia|]. apply Z.lt_le_trans with (2 ^ 63); [lia|].
  apply Z.pow_le_mono_r; lia.
Qed.

Lemma int64_sign_extended z : - 2 ^ 63 <= z < 2 ^ 63 -> sign_extended z.
Proof.
  intros Hz q Hq. destruct (Z.neg_nonneg_cases z) as [Hneg | Hpos].
  - assert (Hn : forall q', 63 <= q' -> Z.testbit z q' = true).
    { intros q' Hq'.
      assert (Hl : Z.testbit (Z.lnot z) q' = false).
      { apply small_bits_false; [|lia]. unfold Z.lnot. rewrite <- Z.sub_1_r. lia. }
      rewrite Z.lnot_spec in Hl by lia. now apply negb_false_iff in Hl. }
    rewrite !Hn; [reflexivity | lia | lia].
  - rewrite !small_bits_false; [reflexivity | lia | lia | lia | lia].
Qed.

Lemma nonneg_bits_bound z :
  0 <= z -> (forall q, 63 <= q -> Z.testbit z q = false) -> z < 2 ^ 63.
Proof.
  intros Hz Hb. destruct (Z.lt_ge_cases z (2 ^ 63)) as [|Hge]; [assumption|].
  exfalso. assert (Hpos : 0 < z) by lia.
  pose proof (Z.bit_log2 z Hpos) as Hl.
  rewrite Hb in Hl; [discriminate|].
  apply Z.log2_le_pow2; lia.
Qed.

Lemma sign_extended_int64 z : sign_extended z -> - 2 ^ 63 <= z < 2 ^ 63.
Proof.
  intros Hs. destruct (Z.testbit z 63) eqn:Hb.
  - assert (Hneg : z < 0).
    { apply Z.bits_iff_neg_ex. exists 63. intros q' Hq'. rewrite Hs; [assumption | lia]. }
    assert (Hl : Z.lnot z < 2 ^ 63).
    { apply nonneg_bits_bound.
      - unfold Z.lnot. rewrite <- Z.sub_1_r. lia.
      - intros q Hq. rewrite Z.lnot_spec by lia. rewrite Hs, Hb; [reflexivity | lia]. }
    unfold Z.lnot in Hl. rewrite <- Z.sub_1_r in Hl. lia.
  - assert (Hpos : 0 <= z).
    { apply Z.bits_iff_nonneg_ex. exists 63. intros q' Hq'. rewrite Hs; [assumption | lia]. }
    split; [lia|]. apply nonneg_bits_bound; [assumption|].
    intros q Hq. rewrite Hs; assumption.
Qed.

Lemma lor_int64 a b :
  - 2 ^ 63 <= a < 2 ^ 63 -> - 2 ^ 63 <= b < 2 ^ 63 ->
  - 2 ^ 63 <= Z.lor a b < 2 ^ 63.
Proof.
  intros Ha Hb. apply sign_extended_int64. intros q Hq.
  rewrite !Z.lor_spec.
  rewrite (int64_sign_extended a Ha q Hq), (int64_sign_extended b Hb q Hq).
  reflexivity.
Qed.

(** The bits of the mask [int64(1) << pos]: one bit, and for [pos = 63] its
    sign extension. *)
Lemma bit_mask_bits pos q :
  0 <= pos < 64 -> 0 <= q ->
  Z.testbit (bit_mask pos) q = (q =? pos) || ((pos =? 63) && (63 <=? q)).
Proof.
  intros Hpos Hq. unfold bit_mask. rewrite Z.shiftl_1_l.
  destruct (Z.eq_dec pos 63) as [-> | Hne].
  - change (int64 (2 ^ 63)) with (Z.lnot (Z.ones 63)).
    rewrite Z.lnot_spec by lia. rewrite Z.testbit_ones_nonneg by lia.
    destruct (Z.ltb_spec q 63), (Z.leb_spec 63 q), (Z.eqb_spec q 63);
      simpl; try reflexivity; lia.
  - rewrite int64_id.
    + rewrite Z.pow2_bits_eqb by lia.
      destruct (Z.eqb_spec pos 63); [contradiction|].
      rewrite andb_false_l, orb_false_r.
      destruct (Z.eqb_spec pos q), (Z.eqb_spec q pos); try reflexivity; lia.
    + split; [pose proof (Z.pow_pos_nonneg 2 pos); lia|].
      apply Z.pow_lt_mono_r; lia.
Qed.

Lemma bit_mask_int64 pos : - 2 ^ 63 <= bit_mask pos < 2 ^ 63.
Proof. apply int64_range. Qed.

Lemma land_mask_test w pos :
  - 2 ^ 63 <= w < 2 ^ 63 -> 0 <= pos < 64 ->
  negb (Z.land w (bit_mask pos) =? 0) = Z.testbit w pos.
Proof.
  intros Hw Hpos. destruct (Z.testbit w pos) eqn:Hb.
  - apply negb_true_iff, Z.eqb_neq. intros H0.
    assert (Hc : Z.testbit (Z.land w (bit_mask pos)) pos = true).
    { rewrite Z.land_spec, Hb, bit_mask_bits by lia. rewrite Z.eqb_refl. reflexivity. }
    rewrite H0, Z.bits_0 in Hc. discriminate.
  - apply negb_false_iff, Z.eqb_eq. apply Z.bits_inj'. intros q Hq.
    rewrite Z.land_spec, Z.bits_0, bit_mask_bits by lia.
    destruct (Z.eqb_spec q pos) as [-> | Hne]; simpl.
    { rewrite Hb. reflexivity. }
    destruct (Z.eqb_spec pos 63) as [-> | ?], (Z.leb_spec 63 q); simpl;
      rewrite ?andb_false_r; try reflexivity.
    rewrite (int64_sign_extended w Hw q) by lia. rewrite Hb. reflexivity.
Qed.

Lemma lor_mask_bits w pos q :
  0 <= pos < 64 -> 0 <= q < 64 ->
  Z.testbit (Z.lor w (bit_mask pos)) q = Z.testbit w q || (q =? pos).
Proof.
  intros Hpos Hq. rewrite Z.lor_spec, bit_mask_bits by lia. f_equal.
  destruct (Z.eqb_spec q pos), (Z.eqb_spec pos 63), (Z.leb_spec 63 q);
    simpl; try reflexivity; lia.
Qed.

Lemma lor_mask_id w pos :
  - 2 ^ 63 <= w < 2 ^ 63 -> 0 <= pos < 64 ->
  Z.testbit w pos = true -> Z.lor w (bit_mask pos) = w.
Proof.
  intros Hw Hpos Hb. apply Z.bits_inj'. intros q Hq.
  rewrite Z.lor_spec, bit_mask_bits by lia.
  destruct (Z.testbit w q) eqn:Hwq; [reflexivity|]. simpl.
  destruct (Z.eqb_spec q pos) as [-> | Hne]; simpl; [congruence|].
  destruct (Z.eqb_spec pos 63) as [-> | ?], (Z.leb_spec 63 q); simpl;
    try reflexivity.
  rewrite (int64_sign_extended w Hw q) in Hwq by lia. congruence.
Qed.

(** ** The bitset *)

Lemma words_typed_ok ws : words_typed ws = true <-> words_ok ws.
Proof.
  unfold words_typed, words_ok. induction ws as [|w ws IH]; simpl.
  - split; [constructor | reflexivity].
  - rewrite andb_true_iff, Forall_cons, is_int64_spec, IH. reflexivity.
Qed.

Lemma bs_wf_spec bs :
  bs_wf bs = true <->
  0 <= bs_size bs < 2 ^ 64
  /\ (bs_size bs + 63) / 64 = Z.of_nat (length (bs_data bs))
  /\ words_ok (bs_data bs).
Proof.
  unfold bs_wf.
  rewrite !andb_true_iff, is_uint64_spec, Z.eqb_eq, words_typed_ok. tauto.
Qed.

Lemma wf_spec f :
  wf f = true <->
  1 <= bf_m f < 2 ^ 64 /\ 0 <= bf_k f < 2 ^ 64
  /\ bs_size (bf_b f) = bf_m f /\ bs_wf (bf_b f) = true.
Proof.
  unfold wf.
  rewrite !andb_true_iff, !is_uint64_spec, Z.eqb_eq, Z.leb_le. intuition lia.
Qed.

(** An index below [size] addresses a word of the array. *)
Lemma word_index_in_range size len i :
  (size + 63) / 64 <= len -> 0 <= i < size -> 0 <= i / 64 < len.
Proof.
  intros Hlen Hi. split.
  - apply Z.div_pos; lia.
  - apply Z.lt_le_trans with ((size + 63) / 64); [|assumption].
    apply Z.div_lt_upper_bound; [lia|].
    pose proof (Z.div_mod (size + 63) 64 ltac:(lia)).
    pose proof (Z.mod_pos_bound (size + 63) 64 ltac:(lia)). lia.
Qed.

Lemma word_lookup (ws : list Z) size i :
  (size + 63) / 64 <= Z.of_nat (length ws) -> 0 <= i < size ->
  exists w, ws !! Z.to_nat (i / 64) = Some w.
Proof.
  intros Hlen Hi.
  destruct (word_index_in_range size _ i Hlen Hi) as [H0 H1].
  apply lookup_lt_is_Some_2. lia.
Qed.

Lemma bs_Test_out bs i : bs_size bs <= i -> bs_Test bs i = Ok false.
Proof.
  intros Hi. unfold bs_Test.
  destruct (Z.leb_spec (bs_size bs) i); [reflexivity | lia].
Qed.

Lemma bs_Set_out bs i : bs_size bs <= i -> bs_Set bs i = Ok bs.
Proof.
  intros Hi. unfold bs_Set.
  destruct (Z.leb_spec (bs_size bs) i); [reflexivity | lia].
Qed.

Lemma bs_Test_in bs i :
  (bs_size bs + 63) / 64 <= Z.of_nat (length (bs_data bs)) ->
  words_ok (bs_data bs) -> 0 <= i < bs_size bs ->
  bs_Test bs i = Ok (bs_bit bs i).
Proof.
  intros Hlen Hws Hi. unfold bs_Test, bs_bit.
  destruct (Z.leb_spec (bs_size bs) i); [lia|].
  destruct (word_lookup _ _ i Hlen Hi) as [w Hw]. rewrite Hw.
  f_equal. apply land_mask_test.
  - exact (Forall_lookup_1 _ _ _ _ Hws Hw).
  - apply Z.mod_pos_bound. lia.
Qed.

Lemma same_bit_iff i j :
  (j =? i) = (j / 64 =? i / 64) && (j mod 64 =? i mod 64).
Proof.
  destruct (Z.eqb_spec j i) as [-> | Hne].
  - rewrite !Z.eqb_refl. reflexivity.
  - symmetry. apply andb_false_iff.
    destruct (Z.eqb_spec (j / 64) (i / 64)) as [Hq|]; [|now left]. right.
    apply Z.eqb_neq. intros Hr. apply Hne.
    rewrite (Z.div_mod j 64), (Z.div_mod i 64) by lia. rewrite Hq, Hr. reflexivity.
Qed.

Lemma bs_Set_in bs i :
  (bs_size bs + 63) / 64 <= Z.of_nat (length (bs_data bs)) ->
  words_ok (bs_data bs) -> 0 <= i < bs_size bs ->
  exists bs',
    bs_Set bs i = Ok bs'
    /\ bs_size bs' = bs_size bs
    /\ length (bs_data bs') = length (bs_data bs)
    /\ words_ok (bs_data bs')
    /\ forall j, 0 <= j -> bs_bit bs' j = bs_bit bs j || (j =? i).
Proof.
  intros Hlen Hws Hi. unfold bs_Set.
  destruct (Z.leb_spec (bs_size bs) i); [lia|].
  destruct (word_lookup _ _ i Hlen Hi) as [w Hw]. rewrite Hw.
  assert (Hpos : 0 <= i mod 64 < 64) by (apply Z.mod_pos_bound; lia).
  assert (Hwr : - 2 ^ 63 <= w < 2 ^ 63) by exact (Forall_lookup_1 _ _ _ _ Hws Hw).
  eexists. split; [reflexivity|]. simpl.
  split; [reflexivity|]. split; [apply length_insert|].
  split.
  { apply Forall_insert; [assumption|].
    apply lor_int64; [assumption | apply bit_mask_int64]. }
  intros j Hj. unfold bs_bit. simpl. rewrite (same_bit_iff i j).
  assert (Hjpos : 0 <= j mod 64 < 64) by (apply Z.mod_pos_bound; lia).
  destruct (Z.eqb_spec (j / 64) (i / 64)) as [Hq | Hq].
  - rewrite Hq, Hw. rewrite list_lookup_insert_eq by (eapply lookup_lt_Some; eassumption).
    simpl. apply lor_mask_bits; assumption.
  - rewrite list_lookup_insert_ne.
    + simpl. rewrite orb_false_r. reflexivity.
    + intros Heq. apply Hq.
      apply Z2Nat.inj in Heq; [congruence | | ]; apply Z.div_pos; lia.
Qed.

(** Setting a bit that tests set changes nothing. *)
Lemma bs_Set_of_set bs i :
  words_ok (bs_data bs) -> bs_Test bs i = Ok true -> bs_Set bs i = Ok bs.
Proof.
  intros Hws. unfold bs_Test, bs_Set.
  destruct (Z.leb_spec (bs_size bs) i); [discriminate|].
  destruct (bs_data bs !! Z.to_nat (i / 64)) as [w|] eqn:Hw; [|discriminate].
  intros Ht. injection Ht as Ht.
  assert (Hpos : 0 <= i mod 64 < 64) by (apply Z.mod_pos_bound; lia).
  assert (Hwr : - 2 ^ 63 <= w < 2 ^ 63) by exact (Forall_lookup_1 _ _ _ _ Hws Hw).
  rewrite land_mask_test in Ht by assumption.
  rewrite lor_mask_id by assumption.
  rewrite list_insert_id by assumption. destruct bs; reflexivity.
Qed.

(** [Set] keeps the words in the [int64] range, whatever the state. *)
Lemma bs_Set_words_ok bs i bs' :
  words_ok (bs_data bs) -> bs_Set bs i = Ok bs' -> words_ok (bs_data bs').
Proof.
  intros Hws. unfold bs_Set.
  destruct (Z.leb_spec (bs_size bs) i); [congruence|].
  destruct (bs_data bs !! Z.to_nat (i / 64)) as [w|] eqn:Hw; [|discriminate].
  intros H1. injection H1 as <-. simpl.
  apply Forall_insert; [assumption|].
  apply lor_int64; [|apply bit_mask_int64].
  exact (Forall_lookup_1 _ _ _ _ Hws Hw).
Qed.

(** ** Probing the filter *)

Lemma with_b_id f : with_b f (bf_b f) = f.
Proof. destruct f; reflexivity. Qed.

Lemma bf_location_ok f h i :
  1 <= bf_m f < 2 ^ 64 ->
  bf_location f h i = Ok (location h i mod bf_m f)
  /\ 0 <= location h i mod bf_m f < bf_m f.
Proof.
  intros Hm. unfold bf_location. rewrite (uint64_id (bf_m f)) by lia.
  pose proof (Z.mod_pos_bound (location h i) (bf_m f) ltac:(lia)) as Hb.
  destruct (Z.eqb_spec (bf_m f) 0); [lia|].
  rewrite uint64_id by lia. split; [reflexivity | assumption].
Qed.

(** The facts the loops need of a filter of the data model. *)
Lemma wf_facts f :
  wf f = true ->
  1 <= bf_m f < 2 ^ 64
  /\ bs_size (bf_b f) = bf_m f
  /\ (bs_size (bf_b f) + 63) / 64 <= Z.of_nat (length (bs_data (bf_b f)))
  /\ words_ok (bs_data (bf_b f)).
Proof.
  intros H. apply wf_spec in H. destruct H as (Hm & Hk & Hs & Hb).
  apply bs_wf_spec in Hb. destruct Hb as (H1 & H2 & H3).
  repeat split; try lia; assumption.
Qed.

Lemma wf_with_b f b :
  wf f = true -> bs_size b = bs_size (bf_b f) ->
  length (bs_data b) = length (bs_data (bf_b f)) -> words_ok (bs_data b) ->
  wf (with_b f b) = true.
Proof.
  intros H Hs Hl Hw. apply wf_spec in H. destruct H as (Hm & Hk & Hsz & Hb).
  apply bs_wf_spec in Hb. destruct Hb as (H1 & H2 & H3).
  apply wf_spec. simpl. repeat split; try lia.
  apply bs_wf_spec. rewrite Hs, Hl. repeat split; try lia; assumption.
Qed.

Lemma probes_range h m n i :
  0 < m -> Forall (fun l => 0 <= l < m) (probes h m n i).
Proof.
  intros Hm. revert i. induction n as [|n IH]; intros i; simpl.
  - constructor.
  - constructor; [apply Z.mod_pos_bound; assumption | apply IH].
Qed.

Lemma existsb_eqb_In j (ls : list Z) : In j ls -> existsb (Z.eqb j) ls = true.
Proof.
  intros H. apply existsb_exists. exists j. split; [assumption | apply Z.eqb_refl].
Qed.

(** [AddHash]'s loop on a filter of the data model: it does not panic, keeps
    the data model and the parameters, and sets exactly the probed bits. *)
Lemma AddHash_loop_spec h n : forall i f,
  wf f = true ->
  exists f',
    AddHash_loop h n i f = Ok f'
    /\ wf f' = true /\ bf_m f' = bf_m f /\ bf_k f' = bf_k f
    /\ forall j, 0 <= j ->
         bs_bit (bf_b f') j
         = bs_bit (bf_b f) j || existsb (Z.eqb j) (probes h (bf_m f) n i).
Proof.
  induction n as [|n IH]; intros i f Hwf; simpl.
  - exists f. repeat split; try assumption. intros j _. rewrite orb_false_r. reflexivity.
  - destruct (wf_facts f Hwf) as (Hm & Hs & Hlen & Hws).
    destruct (bf_location_ok f h i Hm) as [-> Hl]. simpl.
    destruct (bs_Set_in (bf_b f) (location h i mod bf_m f) Hlen Hws ltac:(lia))
      as (b & -> & Hbs & Hbl & Hbw & Hbits). simpl.
    destruct (IH (i + 1) (with_b f b) (wf_with_b f b Hwf Hbs Hbl Hbw))
      as (f' & -> & Hwf' & Hm' & Hk' & Hbits').
    exists f'. repeat split; try assumption.
    intros j Hj. rewrite (Hbits' j Hj). simpl. rewrite (Hbits j Hj).
    rewrite <- orb_assoc. reflexivity.
Qed.

(** [TestHash]'s loop on a filter of the data model: the conjunction of the
    probed bits. *)
Lemma TestHash_loop_spec h n : forall i f,
  wf f = true ->
  TestHash_loop h n i f = Ok (forallb (bs_bit (bf_b f)) (probes h (bf_m f) n i)).
Proof.
  induction n as [|n IH]; intros i f Hwf; simpl; [reflexivity|].
  destruct (wf_facts f Hwf) as (Hm & Hs & Hlen & Hws).
  destruct (bf_location_ok f h i Hm) as [-> Hl]. simpl.
  rewrite (bs_Test_in (bf_b f) _ Hlen Hws) by lia. simpl.
  destruct (bs_bit (bf_b f) (location h i mod bf_m f)); simpl;
    [apply IH; assumption | reflexivity].
Qed.

(** [TestAndAdd]'s loop: the filter it leaves is the one [AddHash]'s loop
    leaves, and the answer is the conjunction of the probed bits as they were
    on entry. *)
Lemma TestAndAdd_loop_spec h n : forall i present f,
  wf f = true ->
  exists f',
    AddHash_loop h n i f = Ok f'
    /\ TestAndAdd_loop h n i present f
       = Ok (present && forallb (bs_bit (bf_b f)) (probes h (bf_m f) n i), f').
Proof.
  induction n as [|n IH]; intros i present f Hwf; simpl.
  - exists f. rewrite andb_true_r. split; reflexivity.
  - destruct (wf_facts f Hwf) as (Hm & Hs & Hlen & Hws).
    destruct (bf_location_ok f h i Hm) as [-> Hl]. simpl.
    assert (Ht := bs_Test_in (bf_b f) (location h i mod bf_m f) Hlen Hws ltac:(lia)).
    rewrite Ht. simpl.
    destruct (bs_bit (bf_b f) (location h i mod bf_m f)) eqn:Hbit; simpl.
    + rewrite (bs_Set_of_set _ _ Hws Ht). simpl. rewrite with_b_id.
      apply IH. assumption.
    + destruct (bs_Set_in (bf_b f) (location h i mod bf_m f) Hlen Hws ltac:(lia))
        as (b & -> & Hbs & Hbl & Hbw & Hbits). simpl.
      destruct (IH (i + 1) false (with_b f b) (wf_with_b f b Hwf Hbs Hbl Hbw))
        as (f' & -> & ->).
      exists f'. rewrite andb_false_r. split; reflexivity.
Qed.

(** [TestOrAdd]'s loop and [TestAndAdd]'s loop agree, outcome for outcome. *)
Lemma TestOrAdd_loop_TestAndAdd_loop h n : forall i present f,
  words_ok (bs_data (bf_b f)) ->
  TestOrAdd_loop h n i present f = TestAndAdd_loop h n i present f.
Proof.
  induction n as [|n IH]; intros i present f Hws; simpl; [reflexivity|].
  destruct (bf_location f h i) as [l|p]; simpl; [|reflexivity].
  destruct (bs_Test (bf_b f) l) as [[|]|p] eqn:Ht; simpl; [| |reflexivity].
  - rewrite (bs_Set_of_set _ _ Hws Ht). simpl. rewrite with_b_id.
    apply IH. assumption.
  - destruct (bs_Set (bf_b f) l) as [b|p] eqn:Hset; simpl; [|reflexivity].
    apply IH. simpl. eapply bs_Set_words_ok; eassumption.
Qed.

(** ** Union and merge *)

Lemma InPlaceUnion_loop_spec os n : forall i ws,
  (i + n = length ws)%nat -> (length ws <= length os)%nat ->
  exists ws',
    InPlaceUnion_loop n i ws os = Ok ws'
    /\ length ws' = length ws
    /\ (forall j, (j < i)%nat -> ws' !! j = ws !! j)
    /\ (forall j w o, (i <= j)%nat -> ws !! j = Some w -> os !! j = Some o ->
          ws' !! j = Some (Z.lor w o)).
Proof.
  induction n as [|n IH]; intros i ws Hn Hlen; simpl.
  - exists ws. repeat split; try reflexivity.
    intros j w o Hj Hw _. apply lookup_lt_Some in Hw. lia.
  - destruct (lookup_lt_is_Some_2 ws i ltac:(lia)) as [w Hw].
    destruct (lookup_lt_is_Some_2 os i ltac:(lia)) as [o Ho].
    rewrite Hw, Ho.
    destruct (IH (S i) (<[i := Z.lor w o]> ws)) as (ws' & -> & Hl & Hlt & Hge).
    { rewrite length_insert. lia. }
    { rewrite length_insert. lia. }
    rewrite length_insert in Hl.
    exists ws'. repeat split; try assumption.
    + intros j Hj. rewrite Hlt by lia. apply list_lookup_insert_ne. lia.
    + intros j w' o' Hj Hw' Ho'. destruct (Nat.eq_dec i j) as [<- | Hne].
      * rewrite Hlt by lia. rewrite list_lookup_insert_eq by lia. congruence.
      * apply Hge; [lia | | assumption].
        rewrite list_lookup_insert_ne by assumption. assumption.
Qed.

Lemma bs_InPlaceUnion_spec bs other :
  length (bs_data bs) = length (bs_data other) ->
  words_ok (bs_data bs) -> words_ok (bs_data other) ->
  exists bs',
    bs_InPlaceUnion bs other = Ok bs'
    /\ bs_size bs' = bs_size bs
    /\ length (bs_data bs') = length (bs_data bs)
    /\ words_ok (bs_data bs')
    /\ bs_data bs' = zip_with Z.lor (bs_data bs) (bs_data other)
    /\ forall j, bs_bit bs' j = bs_bit bs j || bs_bit other j.
Proof.
  intros Hlen Hws Hos. unfold bs_InPlaceUnion.
  destruct (InPlaceUnion_loop_spec (bs_data other) (length (bs_data bs)) 0%nat
              (bs_data bs)) as (ws' & -> & Hl & _ & Hge); [lia | lia |].
  simpl. eexists. split; [reflexivity|]. simpl.
  split; [reflexivity|]. split; [assumption|].
  assert (Hlook : forall j,
            ws' !! j = match bs_data bs !! j, bs_data other !! j with
                       | Some w, Some o => Some (Z.lor w o)
                       | _, _ => None
                       end).
  { intros j. destruct (bs_data bs !! j) as [w|] eqn:Hw.
    - destruct (lookup_lt_is_Some_2 (bs_data other) j) as [o Ho].
      { apply lookup_lt_Some in Hw. lia. }
      rewrite Ho. apply Hge; [lia | assumption | assumption].
    - apply lookup_ge_None. apply lookup_ge_None in Hw. lia. }
  split; [|split].
  - apply Forall_lookup. intros j x Hx. rewrite Hlook in Hx.
    destruct (bs_data bs !! j) as [w|] eqn:Hw; [|discriminate].
    destruct (bs_data other !! j) as [o|] eqn:Ho; [|discriminate].
    injection Hx as <-. apply lor_int64.
    + exact (Forall_lookup_1 _ _ _ _ Hws Hw).
    + exact (Forall_lookup_1 _ _ _ _ Hos Ho).
  - apply list_eq. intros j. rewrite Hlook, lookup_zip_with.
    destruct (bs_data bs !! j); simpl; [|reflexivity].
    destruct (bs_data other !! j); reflexivity.
  - intros j. unfold bs_bit. simpl. rewrite Hlook.
    destruct (bs_data bs !! Z.to_nat (j / 64)) as [w|] eqn:Hw.
    + destruct (bs_data other !! Z.to_nat (j / 64)) as [o|] eqn:Ho.
      * apply Z.lor_spec.
      * apply lookup_ge_None in Ho. apply lookup_lt_Some in Hw. lia.
    + destruct (bs_data other !! Z.to_nat (j / 64)) as [o|] eqn:Ho; [|reflexivity].
      apply lookup_ge_None in Hw. apply lookup_lt_Some in Ho. lia.
Qed.

(** A mismatch of [m] or of [k] is an error and leaves the receiver as it
    was. *)
Lemma Merge_mismatch f g :
  bf_m f <> bf_m g \/ bf_k f <> bf_k g ->
  exists e, Merge f g = Ok (Some e, f).
Proof.
  intros H. unfold Merge.
  destruct (Z.eqb_spec (bf_m f) (bf_m g)) as [Hm|Hm]; simpl; [|eauto].
  destruct (Z.eqb_spec (bf_k f) (bf_k g)) as [Hk|Hk]; simpl; [|eauto].
  tauto.
Qed.

(** A merge of two filters of the data model with the same parameters. *)
Lemma Merge_match f g :
  wf f = true -> wf g = true -> bf_m f = bf_m g -> bf_k f = bf_k g ->
  exists f',
    Merge f g = Ok (None, f')
    /\ wf f' = true /\ bf_m f' = bf_m f /\ bf_k f' = bf_k f
    /\ bs_size (bf_b f') = bs_size (bf_b f)
    /\ bs_data (bf_b f') = zip_with Z.lor (bs_data (bf_b f)) (bs_data (bf_b g))
    /\ forall j, bs_bit (bf_b f') j = bs_bit (bf_b f) j || bs_bit (bf_b g) j.
Proof.
  intros Hf Hg Hm Hk. unfold Merge.
  destruct (Z.eqb_spec (bf_m f) (bf_m g)); [|contradiction].
  destruct (Z.eqb_spec (bf_k f) (bf_k g)); [|contradiction]. simpl.
  pose proof Hf as Hf'. pose proof Hg as Hg'.
  apply wf_spec in Hf'. destruct Hf' as (Hfm & Hfk & Hfs & Hfb).
  apply bs_wf_spec in Hfb. destruct Hfb as (Hf1 & Hf2 & Hf3).
  apply wf_spec in Hg'. destruct Hg' as (Hgm & Hgk & Hgs & Hgb).
  apply bs_wf_spec in Hgb. destruct Hgb as (Hg1 & Hg2 & Hg3).
  destruct (bs_InPlaceUnion_spec (bf_b f) (bf_b g)) as (b & -> & Hbs & Hbl & Hbw & Hbd & Hbits);
    [|assumption|assumption|].
  { apply Nat2Z.inj. rewrite <- Hf2, <- Hg2, Hfs, Hgs, Hm. reflexivity. }
  simpl. exists (with_b f b). split; [reflexivity|].
  split; [apply wf_with_b; assumption|].
  split; [reflexivity|]. split; [reflexivity|].
  split; [exact Hbs|]. split; [exact Hbd|]. exact Hbits.
Qed.

Lemma probes_In h m n : forall i0 t,
  (t < n)%nat -> In (location h (i0 + Z.of_nat t) mod m) (probes h m n i0).
Proof.
  induction n as [|n IH]; intros i0 t Ht; [lia|]. simpl.
  destruct t as [|t].
  - left. rewrite Z.add_0_r. reflexivity.
  - right. replace (i0 + Z.of_nat (S t)) with (i0 + 1 + Z.of_nat t) by lia.
    apply IH. lia.
Qed.

Lemma forallb_bits_kept f f' ls :
  bits_kept f f' -> Forall (fun l => 0 <= l) ls ->
  forallb (bs_bit (bf_b f)) ls = true -> forallb (bs_bit (bf_b f')) ls = true.
Proof.
  intros Hk Hls. induction Hls as [|l ls Hl _ IH]; simpl; [reflexivity|].
  rewrite !andb_true_iff. intros [H1 H2]. split; [apply Hk; assumption | apply IH; assumption].
Qed.

Lemma probes_nonneg h m n i : 0 < m -> Forall (fun l => 0 <= l) (probes h m n i).
Proof.
  intros Hm. eapply Forall_impl; [apply probes_range; assumption|].
  simpl. intros l Hl. lia.
Qed.

Section Membership.

Variable baseHashes : list byte -> hashes.

Lemma Add_spec f x :
  wf f = true ->
  exists f',
    Add baseHashes f x = Ok f'
    /\ wf f' = true /\ bf_m f' = bf_m f /\ bf_k f' = bf_k f
    /\ forall j, 0 <= j ->
         bs_bit (bf_b f') j
         = bs_bit (bf_b f) j
           || existsb (Z.eqb j)
                (probes (baseHashes x) (bf_m f) (Z.to_nat (bf_k f)) 0).
Proof. intros Hwf. apply AddHash_loop_spec. assumption. Qed.

Lemma Test_spec f x :
  wf f = true ->
  Test baseHashes f x
  = Ok (forallb (bs_bit (bf_b f))
          (probes (baseHashes x) (bf_m f) (Z.to_nat (bf_k f)) 0)).
Proof. intros Hwf. apply TestHash_loop_spec. assumption. Qed.

Lemma TestAndAdd_spec f x :
  wf f = true ->
  exists present f',
    Test baseHashes f x = Ok present
    /\ TestAndAdd baseHashes f x = Ok (present, f')
    /\ Add baseHashes f x = Ok f'.
Proof.
  intros Hwf. unfold TestAndAdd.
  destruct (TestAndAdd_loop_spec (baseHashes x) (Z.to_nat (bf_k f)) 0 true f Hwf)
    as (f' & Hadd & ->).
  eexists _, f'. split; [apply Test_spec; assumption|].
  split; [reflexivity | exact Hadd].
Qed.

Lemma TestOrAdd_TestAndAdd f x :
  words_ok (bs_data (bf_b f)) ->
  TestOrAdd baseHashes f x = TestAndAdd baseHashes f x.
Proof. intros Hws. apply TestOrAdd_loop_TestAndAdd_loop. assumption. Qed.

(** After [Add(x)] every probe of [x] is set. *)
Lemma Add_sets_probes f x f' :
  wf f = true -> Add baseHashes f x = Ok f' ->
  forallb (bs_bit (bf_b f'))
    (probes (baseHashes x) (bf_m f) (Z.to_nat (bf_k f)) 0) = true.
Proof.
  intros Hwf Hadd.
  destruct (Add_spec f x Hwf) as (f'' & Hadd' & _ & _ & _ & Hbits).
  rewrite Hadd in Hadd'. injection Hadd' as <-.
  destruct (wf_facts f Hwf) as (Hm & _).
  apply forallb_forall. intros l Hl.
  assert (H0 : 0 <= l).
  { pose proof (probes_nonneg (baseHashes x) (bf_m f) (Z.to_nat (bf_k f)) 0 ltac:(lia)) as Hp.
    rewrite Forall_forall in Hp. apply Hp. apply list_elem_of_In. assumption. }
  rewrite (Hbits l H0). rewrite (existsb_eqb_In l _ Hl). apply orb_true_r.
Qed.

Lemma Add_bits_kept f x f' :
  wf f = true -> Add baseHashes f x = Ok f' -> bits_kept f f'.
Proof.
  intros Hwf Hadd.
  destruct (Add_spec f x Hwf) as (f'' & Hadd' & _ & _ & _ & Hbits).
  rewrite Hadd in Hadd'. injection Hadd' as <-.
  intros j Hj Hb. rewrite (Hbits j Hj), Hb. reflexivity.
Qed.

(** One mutating operation on a filter of the data model. *)
Lemma run_op_spec f o :
  wf f = true -> op_wf o = true ->
  exists f',
    run_op baseHashes f o = Ok f'
    /\ wf f' = true /\ bf_m f' = bf_m f /\ bf_k f' = bf_k f
    /\ bits_kept f f'.
Proof.
  intros Hwf Ho. destruct o as [x | x | x | g]; simpl.
  - destruct (Add_spec f x Hwf) as (f' & Hadd & Hwf' & Hm & Hk & _).
    exists f'. repeat split; try assumption. eapply Add_bits_kept; eassumption.
  - destruct (TestAndAdd_spec f x Hwf) as (p & f' & _ & -> & Hadd). simpl.
    destruct (Add_spec f x Hwf) as (f'' & Hadd' & Hwf' & Hm & Hk & _).
    rewrite Hadd in Hadd'. injection Hadd' as <-.
    exists f'. repeat split; try assumption. eapply Add_bits_kept; eassumption.
  - destruct (wf_facts f Hwf) as (_ & _ & _ & Hws).
    rewrite (TestOrAdd_TestAndAdd f x Hws).
    destruct (TestAndAdd_spec f x Hwf) as (p & f' & _ & -> & Hadd). simpl.
    destruct (Add_spec f x Hwf) as (f'' & Hadd' & Hwf' & Hm & Hk & _).
    rewrite Hadd in Hadd'. injection Hadd' as <-.
    exists f'. repeat split; try assumption. eapply Add_bits_kept; eassumption.
  - simpl in Ho.
    destruct (Z.eq_dec (bf_m f) (bf_m g)) as [Hm | Hm];
      [destruct (Z.eq_dec (bf_k f) (bf_k g)) as [Hk | Hk]|].
    + destruct (Merge_match f g Hwf Ho Hm Hk) as (f' & -> & Hwf' & Hm' & Hk' & _ & _ & Hbits).
      simpl. exists f'. repeat split; try assumption.
      intros j _ Hb. rewrite Hbits, Hb. reflexivity.
    + destruct (Merge_mismatch f g (or_intror Hk)) as (e & ->). simpl.
      exists f. repeat split; try assumption. intros j _ Hb. assumption.
    + destruct (Merge_mismatch f g (or_introl Hm)) as (e & ->). simpl.
      exists f. repeat split; try assumption. intros j _ Hb. assumption.
Qed.

Lemma run_ops_spec os : forall f,
  wf f = true -> forallb op_wf os = true ->
  exists f',
    run_ops baseHashes f os = Ok f'
    /\ wf f' = true /\ bf_m f' = bf_m f /\ bf_k f' = bf_k f
    /\ bits_kept f f'.
Proof.
  induction os as [|o os IH]; intros f Hwf Hos; simpl.
  - exists f. repeat split; try assumption. intros j _ Hb. assumption.
  - simpl in Hos. apply andb_true_iff in Hos. destruct Hos as [Ho Hos].
    destruct (run_op_spec f o Hwf Ho) as (f1 & -> & Hwf1 & Hm1 & Hk1 & Hkept1).
    simpl. destruct (IH f1 Hwf1 Hos) as (f2 & -> & Hwf2 & Hm2 & Hk2 & Hkept2).
    exists f2. repeat split; try assumption; try congruence.
    intros j Hj Hb. apply Hkept2; [assumption|]. apply Hkept1; assumption.
Qed.

(** C1.  On a filter of the data model, [Add(x)] succeeds and [Test(x)] is
    true afterwards; after any further sequence of [Add], [TestAndAdd],
    [TestOrAdd] and [Merge] operations (the merged filters being of the data
    model too) [Test(x)] is still true, and every bit that was set is still
    set. *)
Theorem Add_then_Test_stays_true (f : BloomFilter) (x : list byte) (os : list op) :
  wf f = true -> forallb op_wf os = true ->
  exists f1 f2,
    Add baseHashes f x = Ok f1
    /\ Test baseHashes f1 x = Ok true
    /\ run_ops baseHashes f1 os = Ok f2
    /\ Test baseHashes f2 x = Ok true
    /\ bits_kept f1 f2.
Proof.
  intros Hwf Hos.
  destruct (Add_spec f x Hwf) as (f1 & Hadd & Hwf1 & Hm1 & Hk1 & _).
  destruct (run_ops_spec os f1 Hwf1 Hos) as (f2 & Hrun & Hwf2 & Hm2 & Hk2 & Hkept).
  pose proof (Add_sets_probes f x f1 Hwf Hadd) as Hset.
  exists f1, f2. split; [assumption|].
  split; [rewrite (Test_spec f1 x Hwf1), Hm1, Hk1, Hset; reflexivity|].
  split; [assumption|]. split; [|assumption].
  rewrite (Test_spec f2 x Hwf2), Hm2, Hk2, Hm1, Hk1. f_equal.
  apply (forallb_bits_kept f1 f2); [assumption | | assumption].
  apply probes_nonneg. destruct (wf_facts f Hwf). lia.
Qed.

(** C6.  On a filter of the data model, [TestAndAdd(x)] returns what
    [Test(x)] returns on the filter as it was, and afterwards each of the
    [k] derived positions of [x] tests set, so that [Test(x)] is true. *)
Theorem TestAndAdd_returns_prior_Test (f : BloomFilter) (x : list byte) :
  wf f = true ->
  exists present f',
    Test baseHashes f x = Ok present
    /\ TestAndAdd baseHashes f x = Ok (present, f')
    /\ (forall i, 0 <= i < bf_k f' ->
          exists l, bf_location f' (baseHashes x) i = Ok l
                    /\ bs_Test (bf_b f') l = Ok true)
    /\ Test baseHashes f' x = Ok true.
Proof.
  intros Hwf.
  destruct (TestAndAdd_spec f x Hwf) as (present & f' & Htest & Htaa & Hadd).
  destruct (Add_spec f x Hwf) as (f'' & Hadd' & Hwf' & Hm & Hk & _).
  rewrite Hadd in Hadd'. injection Hadd' as <-.
  pose proof (Add_sets_probes f x f' Hwf Hadd) as Hset.
  exists present, f'. split; [assumption|]. split; [assumption|].
  destruct (wf_facts f' Hwf') as (Hm' & Hs' & Hlen' & Hws').
  split.
  - intros i Hi.
    destruct (bf_location_ok f' (baseHashes x) i Hm') as [Hloc Hl].
    eexists. split; [exact Hloc|].
    rewrite (bs_Test_in (bf_b f') _ Hlen' Hws') by lia. f_equal.
    rewrite forallb_forall in Hset. apply Hset.
    rewrite Hm. replace i with (0 + Z.of_nat (Z.to_nat i)) at 1 by lia.
    apply probes_In. rewrite <- Hk. lia.
  - rewrite (Test_spec f' x Hwf'), Hm, Hk, Hset. reflexivity.
Qed.

(** C10.  In a sequential execution [TestOrAdd(x)] and [TestAndAdd(x)] have
    the same outcome: the same boolean and the same final filter (and on a
    filter of the data model that outcome is a result, not a panic). *)
Theorem TestOrAdd_equiv_TestAndAdd (f : BloomFilter) (x : list byte) :
  words_typed (bs_data (bf_b f)) = true ->
  TestOrAdd baseHashes f x = TestAndAdd baseHashes f x
  /\ (wf f = true ->
      exists present f', TestOrAdd baseHashes f x = Ok (present, f')).
Proof.
  intros Hws. apply words_typed_ok in Hws.
  rewrite (TestOrAdd_TestAndAdd f x Hws). split; [reflexivity|].
  intros Hwf. destruct (TestAndAdd_spec f x Hwf) as (p & f' & _ & -> & _).
  exists p, f'. reflexivity.
Qed.

(** C3.  [f.Merge(g)] returns the error naming the mismatch and leaves [f]
    as it was when [m] or [k] differ; when both match, on filters of the
    data model, it returns no error, leaves in [f] the word-by-word OR of
    the two bit arrays, and every key that tested true in [f] or in [g]
    tests true in [f] afterwards. *)
Theorem Merge_error_or_union (f g : BloomFilter) :
  (bf_m f <> bf_m g ->
     Merge f g = Ok (Some (ErrDontMatch FieldM (bf_m f) (bf_m g)), f))
  /\ (bf_m f = bf_m g -> bf_k f <> bf_k g ->
     Merge f g = Ok (Some (ErrDontMatch FieldK (bf_k f) (bf_k g)), f))
  /\ (wf f = true -> wf g = true -> bf_m f = bf_m g -> bf_k f = bf_k g ->
     exists f',
       Merge f g = Ok (None, f')
       /\ bf_m f' = bf_m f /\ bf_k f' = bf_k f
       /\ bs_size (bf_b f') = bs_size (bf_b f)
       /\ bs_data (bf_b f')
          = zip_with Z.lor (bs_data (bf_b f)) (bs_data (bf_b g))
       /\ forall x,
            Test baseHashes f x = Ok true \/ Test baseHashes g x = Ok true ->
            Test baseHashes f' x = Ok true).
Proof.
  split; [|split].
  - intros Hm. unfold Merge.
    destruct (Z.eqb_spec (bf_m f) (bf_m g)); [contradiction | reflexivity].
  - intros Hm Hk. unfold Merge.
    destruct (Z.eqb_spec (bf_m f) (bf_m g)); [|contradiction].
    destruct (Z.eqb_spec (bf_k f) (bf_k g)); [contradiction | reflexivity].
  - intros Hf Hg Hm Hk.
    destruct (Merge_match f g Hf Hg Hm Hk)
      as (f' & Hmerge & Hwf' & Hm' & Hk' & Hsz & Hwords & Hbits).
    exists f'. repeat split; try assumption.
    intros x Hx. rewrite (Test_spec f' x Hwf'), Hm', Hk'. f_equal.
    apply forallb_forall. intros l Hl. rewrite Hbits.
    destruct Hx as [Hx | Hx].
    + rewrite (Test_spec f x Hf) in Hx. injection Hx as Hx.
      rewrite forallb_forall in Hx. rewrite (Hx l Hl). reflexivity.
    + rewrite (Test_spec g x Hg), <- Hm, <- Hk in Hx. injection Hx as Hx.
      rewrite forallb_forall in Hx. rewrite (Hx l Hl). apply orb_true_r.
Qed.

End Membership.

(** ** Constructors *)

Lemma max_spec x y : max x y = Z.max x y.
Proof. unfold max. destruct (Z.ltb_spec y x); lia. Qed.

Lemma newAtomicBitSet_wf size :
  0 <= size <= 2 ^ 64 - 64 -> bs_wf (newAtomicBitSet size) = true.
Proof.
  intros Hs. apply bs_wf_spec. unfold newAtomicBitSet. simpl.
  rewrite uint64_id by lia. rewrite length_replicate.
  split; [lia|]. split.
  - rewrite Z2Nat.id; [reflexivity|]. apply Z.div_pos; lia.
  - apply Forall_replicate. lia.
Qed.

Lemma fromAtomicBitSet_loop_spec vs : forall i ws,
  Forall (fun v => - 2 ^ 63 <= v < 2 ^ 63) vs -> words_ok ws ->
  length (fromAtomicBitSet_loop i vs ws) = length ws
  /\ words_ok (fromAtomicBitSet_loop i vs ws).
Proof.
  induction vs as [|v vs IH]; intros i ws Hvs Hws; simpl; [tauto|].
  apply Forall_cons in Hvs. destruct Hvs as [Hv Hvs].
  destruct (i <? length ws)%nat.
  - destruct (IH (S i) (<[i := v]> ws) Hvs) as [Hl Hw].
    { apply Forall_insert; assumption. }
    rewrite length_insert in Hl. tauto.
  - apply IH; assumption.
Qed.

Lemma fromAtomicBitSet_wf data size :
  0 <= size <= 2 ^ 64 - 64 -> words_typed data = true ->
  bs_wf (fromAtomicBitSet data size) = true.
Proof.
  intros Hs Hd. apply words_typed_ok in Hd.
  pose proof (newAtomicBitSet_wf size Hs) as Hn. apply bs_wf_spec in Hn.
  destruct Hn as (H1 & H2 & H3).
  destruct (fromAtomicBitSet_loop_spec data 0%nat _ Hd H3) as [Hl Hw].
  apply bs_wf_spec. unfold fromAtomicBitSet. simpl in *.
  rewrite Hl. repeat split; try lia; assumption.
Qed.


(** [New] clamps both parameters. *)
Lemma New_clamps m k :
  Cap (New m k) = Z.max 1 m /\ K (New m k) = Z.max 1 k.
Proof. unfold New, Cap, K. simpl. rewrite !max_spec. tauto. Qed.

Lemma NewWithEstimates_clamps (float64 : Type)
    (EstimateParameters : Z -> float64 -> Z * Z) n fp :
  1 <= Cap (NewWithEstimates float64 EstimateParameters n fp)
  /\ 1 <= K (NewWithEstimates float64 EstimateParameters n fp).
Proof.
  unfold NewWithEstimates. destruct (EstimateParameters n fp) as [m k].
  destruct (New_clamps m k) as [-> ->]. lia.
Qed.

(** [FromWithM] clamps [k] and keeps [m] as it is given. *)
Lemma FromWithM_params data m k :
  Cap (FromWithM data m k) = m /\ K (FromWithM data m k) = Z.max 1 k.
Proof. unfold FromWithM, Cap, K. simpl. rewrite max_spec. tauto. Qed.

(** C7.  [FromWithM] (and [From], which calls it) does not clamp [m]: with
    [m = 0] (or with no data words) the filter has [Cap() = 0], while [k] is
    clamped to 1; [Add] and [Test] on it then divide by zero.  [New] given the
    same parameters has [Cap() = 1]. *)
Theorem FromWithM_zero_m_not_clamped :
  Cap (FromWithM [] 0 0) = 0
  /\ K (FromWithM [] 0 0) = 1
  /\ Cap (From [] 0) = 0
  /\ Cap (New 0 0) = 1
  /\ (forall baseHashes x, Add baseHashes (FromWithM [] 0 0) x = Panic DivideByZero)
  /\ (forall baseHashes x, Test baseHashes (FromWithM [] 0 0) x = Panic DivideByZero).
Proof. repeat split. Qed.

(** ** The probe formula *)

Lemma mod_2_64_mod_4 a : (a mod 2 ^ 64) mod 4 = a mod 4.
Proof.
  apply Z.mod_mod_divide. exists (2 ^ 62). reflexivity.
Qed.

(** C2.  The [i]-th raw probe position is
    [h[i % 2] + i * h[2 + (((i + (i % 2)) % 4) / 2)]] in 64-bit unsigned
    arithmetic, the two indices being 0 or 1 and 2 or 3, and the bit index a
    filter of [m] bits uses is that value modulo [m]. *)
Theorem location_formula (h : hashes) (i : Z) (f : BloomFilter) :
  0 <= i < 2 ^ 64 -> 1 <= bf_m f < 2 ^ 64 ->
  location h i = location_spec h i
  /\ 0 <= i mod 2 <= 1
  /\ 2 <= 2 + ((i + i mod 2) mod 4) / 2 <= 3
  /\ bf_location f h i = Ok (location_spec h i mod bf_m f).
Proof.
  intros Hi Hm.
  assert (Hloc : location h i = location_spec h i).
  { unfold location, location_spec. rewrite (uint64_id i Hi).
    unfold uint64. rewrite mod_2_64_mod_4. apply Zplus_mod_idemp_r. }
  split; [exact Hloc|].
  split; [pose proof (Z.mod_pos_bound i 2 ltac:(lia)); lia|].
  split.
  - pose proof (Z.mod_pos_bound (i + i mod 2) 4 ltac:(lia)) as Hb.
    assert (0 <= ((i + i mod 2) mod 4) / 2 < 2); [|lia].
    split; [apply Z.div_pos; lia|].
    apply Z.div_lt_upper_bound; lia.
  - rewrite <- Hloc. apply bf_location_ok. assumption.
Qed.

(** ** Safety of the bit accesses *)

(** C8.  On a bitset of the data model (its word array has [ceil(size/64)]
    words) [Set(i)] and [Test(i)] do not panic for any index [i]: for
    [i >= size], [Set] leaves the bitset as it is and [Test] returns false;
    for [i < size] the word index [i / 64] is within the word array.  [Set]
    keeps the data model. *)
Theorem Set_Test_never_panic (bs : atomicBitSet) (i : Z) :
  bs_wf bs = true -> 0 <= i < 2 ^ 64 ->
  (exists bs', bs_Set bs i = Ok bs' /\ bs_wf bs' = true)
  /\ (exists t, bs_Test bs i = Ok t)
  /\ (bs_size bs <= i -> bs_Set bs i = Ok bs /\ bs_Test bs i = Ok false)
  /\ (i < bs_size bs ->
      (Z.to_nat (i / 64) < length (bs_data bs))%nat
      /\ is_Some (bs_data bs !! Z.to_nat (i / 64))).
Proof.
  intros Hwf Hi. pose proof Hwf as Hwf'.
  apply bs_wf_spec in Hwf'. destruct Hwf' as (Hs & Hlen & Hws).
  assert (Hlen' : (bs_size bs + 63) / 64 <= Z.of_nat (length (bs_data bs))) by lia.
  destruct (Z.le_gt_cases (bs_size bs) i) as [Hout | Hin].
  - rewrite (bs_Set_out bs i Hout), (bs_Test_out bs i Hout).
    split; [eauto|]. split; [eauto|]. split; [tauto|]. lia.
  - destruct (bs_Set_in bs i Hlen' Hws ltac:(lia)) as (bs' & Hset & Hbs & Hbl & Hbw & _).
    rewrite Hset, (bs_Test_in bs i Hlen' Hws) by lia.
    split.
    { exists bs'. split; [reflexivity|]. apply bs_wf_spec. rewrite Hbs, Hbl. tauto. }
    split; [eauto|]. split; [lia|]. intros _.
    destruct (word_index_in_range _ _ i Hlen' ltac:(lia)) as [H0 H1].
    assert (Hlt : (Z.to_nat (i / 64) < length (bs_data bs))%nat) by lia.
    split; [exact Hlt | apply lookup_lt_is_Some_2; exact Hlt].
Qed.

(** ** Serialization *)

Lemma Z_of_byte_of_Z z : Z_of_byte (byte_of_Z z) = z mod 256.
Proof.
  unfold Z_of_byte, byte_of_Z.
  pose proof (Z.mod_pos_bound z 256 ltac:(lia)) as Hb.
  destruct (Byte.of_N (Z.to_N (z mod 256))) as [b|] eqn:E.
  - apply Byte.to_of_N in E. rewrite E. apply Z2N.id. lia.
  - apply Byte.of_N_None_iff in E. lia.
Qed.

Lemma small_bits_false_64 v q : 0 <= v < 2 ^ 64 -> 64 <= q -> Z.testbit v q = false.
Proof.
  intros Hv Hq. apply Z.testbit_false; [lia|].
  rewrite Z.div_small; [reflexivity|].
  split; [lia|]. apply Z.lt_le_trans with (2 ^ 64); [lia|].
  apply Z.pow_le_mono_r; lia.
Qed.

Lemma byte_term_bit v s q :
  0 <= s -> 0 <= q ->
  Z.testbit (Z.shiftl (Z.land (Z.shiftr v s) (Z.ones 8)) s) q
  = Z.testbit v q && ((s <=? q) && (q <? s + 8)).
Proof.
  intros Hs Hq. rewrite Z.shiftl_spec by assumption.
  destruct (Z.leb_spec s q) as [Hle | Hlt].
  - rewrite Z.land_spec, Z.shiftr_spec, Z.testbit_ones_nonneg by lia.
    replace (q - s + s) with q by lia. f_equal. simpl.
    destruct (Z.ltb_spec (q - s) 8), (Z.ltb_spec q (s + 8)); try reflexivity; lia.
  - rewrite Z.testbit_neg_r by lia. rewrite andb_false_r. reflexivity.
Qed.

Lemma Uint64_bytes v :
  0 <= v < 2 ^ 64 ->
  Z.lor (Z.land v (Z.ones 8))
   (Z.lor (Z.shiftl (Z.land (Z.shiftr v 8) (Z.ones 8)) 8)
    (Z.lor (Z.shiftl (Z.land (Z.shiftr v 16) (Z.ones 8)) 16)
     (Z.lor (Z.shiftl (Z.land (Z.shiftr v 24) (Z.ones 8)) 24)
      (Z.lor (Z.shiftl (Z.land (Z.shiftr v 32) (Z.ones 8)) 32)
       (Z.lor (Z.shiftl (Z.land (Z.shiftr v 40) (Z.ones 8)) 40)
        (Z.lor (Z.shiftl (Z.land (Z.shiftr v 48) (Z.ones 8)) 48)
               (Z.shiftl (Z.land (Z.shiftr v 56) (Z.ones 8)) 56))))))) = v.
Proof.
  intros Hv. apply Z.bits_inj'. intros q Hq.
  replace (Z.land v (Z.ones 8))
    with (Z.shiftl (Z.land (Z.shiftr v 0) (Z.ones 8)) 0)
    by (rewrite Z.shiftl_0_r, Z.shiftr_0_r; reflexivity).
  rewrite !Z.lor_spec, !byte_term_bit by lia.
  destruct (Z.testbit v q) eqn:Hb; [|reflexivity]. simpl.
  assert (Hq64 : q < 64).
  { destruct (Z.lt_ge_cases q 64) as [|Hge]; [assumption|].
    rewrite (small_bits_false_64 v q Hv Hge) in Hb. discriminate. }
  repeat match goal with
         | |- context [?a <=? ?b] => destruct (Z.leb_spec a b); simpl; try lia
         | |- context [?a <? ?b] => destruct (Z.ltb_spec a b); simpl; try lia
         end; reflexivity.
Qed.

(** Reading back the eight bytes of a [uint64]. *)
Lemma binary_Read_PutUint64 v rest :
  0 <= v < 2 ^ 64 -> binary_Read (PutUint64 v ++ rest) = ReadOk v rest.
Proof.
  intros Hv. unfold PutUint64. simpl. f_equal. unfold Uint64.
  rewrite !Z_of_byte_of_Z.
  change 256 with (2 ^ 8). rewrite <- !Z.land_ones by lia.
  apply Uint64_bytes. assumption.
Qed.

Lemma length_PutUint64 v : length (PutUint64 v) = 8%nat.
Proof. reflexivity. Qed.

Lemma bs_WriteTo_loop_stream ws : forall stream total,
  fst (bs_WriteTo_loop ws stream total) = stream ++ wire_words ws.
Proof.
  induction ws as [|w ws IH]; intros stream total; simpl.
  - rewrite app_nil_r. reflexivity.
  - rewrite IH. unfold binary_Write. rewrite <- app_assoc. reflexivity.
Qed.

Lemma bs_WriteTo_wire bs stream :
  0 <= bs_size bs < 2 ^ 64 -> Z.of_nat (length (bs_data bs)) < 2 ^ 64 ->
  exists n,
    bs_WriteTo bs stream
    = (stream ++ wire_BitSet (bs_size bs) (bs_data bs), n, None).
Proof.
  intros Hs Hlen. unfold bs_WriteTo.
  pose proof (bs_WriteTo_loop_stream (bs_data bs)
    (binary_Write (binary_Write stream (bs_size bs))
       (uint64 (Z.of_nat (length (bs_data bs)))))
    (int64 (8 + 8))) as Hl.
  destruct (bs_WriteTo_loop _ _ _) as [s n]. simpl in Hl. subst s.
  exists n. f_equal. f_equal. unfold binary_Write, wire_BitSet.
  rewrite (uint64_id (bs_size bs)) by assumption.
  rewrite (uint64_id (uint64 _)) by apply uint64_range.
  rewrite (uint64_id (Z.of_nat _)) by lia.
  rewrite <- !app_assoc. reflexivity.
Qed.

Lemma WriteTo_wire f stream :
  bf_typed f = true ->
  exists n,
    WriteTo f stream
    = (stream ++ wire_BloomFilter (bf_m f) (bf_k f) (bs_size (bf_b f))
                   (bs_data (bf_b f)), n, None).
Proof.
  unfold bf_typed. rewrite !andb_true_iff, !is_uint64_spec, Z.ltb_lt.
  intros ((((Hm & Hk) & Hs) & _) & Hlen). unfold WriteTo.
  destruct (bs_WriteTo_wire (bf_b f)
              (binary_Write (binary_Write stream (uint64 (bf_m f))) (uint64 (bf_k f)))
              Hs ltac:(lia)) as [n ->].
  eexists. f_equal. f_equal. unfold binary_Write, wire_BloomFilter.
  rewrite !(uint64_id (uint64 _)) by apply uint64_range.
  rewrite (uint64_id (bf_m f)), (uint64_id (bf_k f)) by assumption.
  rewrite <- !app_assoc. reflexivity.
Qed.

(** Reading [length ws] words from a stream that starts with them fills the
    slots from [length done] on. *)
Lemma bs_ReadFrom_loop_words ws : forall done rest total,
  words_ok ws ->
  exists total',
    bs_ReadFrom_loop (length ws) (length done)
      (done ++ replicate (length ws) 0) (wire_words ws ++ rest) total
    = (done ++ ws, rest, total', None).
Proof.
  induction ws as [|w ws IH]; intros done rest total Hws.
  - exists total. simpl. rewrite app_nil_r. reflexivity.
  - apply Forall_cons in Hws. destruct Hws as [Hw Hws].
    change (wire_words (w :: ws)) with (PutUint64 (uint64 w) ++ wire_words ws).
    cbn [length replicate bs_ReadFrom_loop].
    rewrite <- app_assoc.
    rewrite binary_Read_PutUint64 by apply uint64_range.
    rewrite (int64_uint64 w Hw).
    replace (<[length done := w]> (done ++ 0 :: replicate (length ws) 0))
      with ((done ++ [w]) ++ replicate (length ws) 0).
    + replace (S (length done)) with (length (done ++ [w])).
      * destruct (IH (done ++ [w]) rest (int64 (total + 8)) Hws) as [total' ->].
        exists total'. rewrite <- app_assoc. reflexivity.
      * rewrite length_app. simpl. lia.
    + rewrite <- app_assoc. simpl. symmetry.
      replace (length done) with (length done + 0)%nat at 1 by lia.
      rewrite insert_app_r. reflexivity.
Qed.

(** [ReadFrom] on a stream that holds the four header fields and as many
    words as the header declares: the declared size is not compared with the
    word count. *)
Lemma bs_ReadFrom_wire bs size ws rest :
  0 <= size < 2 ^ 64 -> words_ok ws -> Z.of_nat (length ws) < 2 ^ 63 ->
  exists n,
    bs_ReadFrom bs (wire_BitSet size ws ++ rest)
    = Ok ({| bs_data := ws; bs_size := size |}, rest, n, None).
Proof.
  intros Hs Hws Hlen. unfold bs_ReadFrom, wire_BitSet.
  rewrite <- !app_assoc.
  rewrite binary_Read_PutUint64 by assumption.
  rewrite binary_Read_PutUint64 by lia.
  destruct (Z.leb_spec (2 ^ 63) (Z.of_nat (length ws))); [lia|].
  rewrite Nat2Z.id.
  destruct (bs_ReadFrom_loop_words ws [] rest 16 Hws) as [n Hn].
  simpl in Hn. rewrite Hn. exists n. reflexivity.
Qed.

Lemma ReadFrom_wire f m k size ws rest :
  0 <= m < 2 ^ 64 -> 0 <= k < 2 ^ 64 -> 0 <= size < 2 ^ 64 ->
  words_ok ws -> Z.of_nat (length ws) < 2 ^ 63 ->
  exists n,
    ReadFrom f (wire_BloomFilter m k size ws ++ rest)
    = Ok ({| bf_m := m; bf_k := k;
             bf_b := {| bs_data := ws; bs_size := size |} |}, rest, n, None).
Proof.
  intros Hm Hk Hs Hws Hlen. unfold ReadFrom, wire_BloomFilter.
  rewrite <- !app_assoc.
  rewrite binary_Read_PutUint64 by assumption.
  rewrite binary_Read_PutUint64 by assumption.
  destruct (bs_ReadFrom_wire {| bs_data := []; bs_size := 0 |} size ws rest Hs Hws Hlen)
    as [n ->].
  simpl. rewrite (uint64_id m), (uint64_id k) by assumption.
  eexists. reflexivity.
Qed.

Lemma words_equal_refl ws : words_equal ws ws = true.
Proof. induction ws as [|w ws IH]; simpl; [reflexivity|]. rewrite Z.eqb_refl. exact IH. Qed.

Lemma Equal_refl f : Equal f f = true.
Proof.
  unfold Equal, bs_Equal. rewrite !Z.eqb_refl, Nat.eqb_refl. simpl.
  apply words_equal_refl.
Qed.

(** C4.  Decoding the bytes that encode a filter gives the filter back: the
    result is equal to it under [Equal] (indeed the same [m], [k], size and
    words), whatever the receiver held before; [New 1 1], which has no bit
    set, is one such filter. *)
Theorem ReadFrom_WriteTo_roundtrip (f target : BloomFilter) :
  bf_typed f = true ->
  exists bytes n f' n',
    WriteTo f [] = (bytes, n, None)
    /\ ReadFrom target bytes = Ok (f', [], n', None)
    /\ Equal f' f = true
    /\ f' = f.
Proof.
  intros Ht. destruct (WriteTo_wire f [] Ht) as [n Hw].
  unfold bf_typed in Ht.
  rewrite !andb_true_iff, !is_uint64_spec, Z.ltb_lt, words_typed_ok in Ht.
  destruct Ht as ((((Hm & Hk) & Hs) & Hws) & Hlen).
  destruct (ReadFrom_wire target (bf_m f) (bf_k f) (bs_size (bf_b f))
              (bs_data (bf_b f)) [] Hm Hk Hs Hws Hlen) as [n' Hr].
  rewrite app_nil_r in Hr. simpl in Hw.
  assert (Hf : {| bf_m := bf_m f; bf_k := bf_k f;
                  bf_b := {| bs_data := bs_data (bf_b f);
                             bs_size := bs_size (bf_b f) |} |} = f).
  { destruct f as [m k [ws size]]. reflexivity. }
  rewrite Hf in Hr.
  exists (wire_BloomFilter (bf_m f) (bf_k f) (bs_size (bf_b f)) (bs_data (bf_b f))),
    n, f, n'.
  split; [exact Hw|]. split; [exact Hr|]. split; [apply Equal_refl | reflexivity].
Qed.

(** ** Truncated streams *)




Lemma length_wire_words ws : length (wire_words ws) = (8 * length ws)%nat.
Proof.
  induction ws as [|w ws IH]; [reflexivity|].
  change (wire_words (w :: ws)) with (PutUint64 (uint64 w) ++ wire_words ws).
  rewrite length_app, length_PutUint64, IH. simpl. lia.
Qed.

Lemma length_wire_BloomFilter m k size ws :
  length (wire_BloomFilter m k size ws) = (32 + 8 * length ws)%nat.
Proof.
  unfold wire_BloomFilter, wire_BitSet.
  rewrite !length_app, !length_PutUint64, length_wire_words. lia.
Qed.




(** ** The theorems at concrete inputs *)

Lemma Add_then_Test_stays_true_witness :
  let f := New 100 3 in
  let x := [x61] in
  let os := [OpAdd [x62]; OpTestAndAdd [x63]; OpTestOrAdd [x61];
             OpMerge (FromWithM [5] 100 3); OpMerge (New 7 3)] in
  wf f = true /\ forallb op_wf os = true
  /\ exists f1 f2,
       Add sample_hashes f x = Ok f1
       /\ Test sample_hashes f1 x = Ok true
       /\ run_ops sample_hashes f1 os = Ok f2
       /\ Test sample_hashes f2 x = Ok true
       /\ bits_kept f1 f2.
Proof.
  split; [reflexivity|]. split; [reflexivity|].
  apply (Add_then_Test_stays_true sample_hashes (New 100 3) [x61]); reflexivity.
Defined.

Lemma location_formula_witness :
  let h := (10, 20, 30, 40) in
  let f := New 1000 4 in
  (0 <= 5 < 2 ^ 64 /\ 1 <= bf_m f < 2 ^ 64)
  /\ location h 5 = location_spec h 5
  /\ 0 <= 5 mod 2 <= 1
  /\ 2 <= 2 + ((5 + 5 mod 2) mod 4) / 2 <= 3
  /\ bf_location f h 5 = Ok (location_spec h 5 mod bf_m f).
Proof.
  split; [by_eval|].
  apply (location_formula (10, 20, 30, 40) 5 (New 1000 4)); by_eval.
Defined.

Lemma Merge_error_or_union_witness :
  let f := New 100 3 in
  let g := FromWithM [5] 100 3 in
  Merge f (New 200 3) = Ok (Some (ErrDontMatch FieldM 100 200), f)
  /\ Merge f (New 100 4) = Ok (Some (ErrDontMatch FieldK 3 4), f)
  /\ exists f',
       Merge f g = Ok (None, f')
       /\ bf_m f' = bf_m f /\ bf_k f' = bf_k f
       /\ bs_size (bf_b f') = bs_size (bf_b f)
       /\ bs_data (bf_b f') = zip_with Z.lor (bs_data (bf_b f)) (bs_data (bf_b g))
       /\ forall x,
            Test sample_hashes f x = Ok true \/ Test sample_hashes g x = Ok true ->
            Test sample_hashes f' x = Ok true.
Proof.
  split; [|split].
  - apply (proj1 (Merge_error_or_union sample_hashes (New 100 3) (New 200 3))).
    by_eval.
  - apply (proj1 (proj2 (Merge_error_or_union sample_hashes (New 100 3) (New 100 4)))).
    + reflexivity.
    + by_eval.
  - apply (proj2 (proj2 (Merge_error_or_union sample_hashes (New 100 3)
                           (FromWithM [5] 100 3)))); reflexivity.
Defined.

Lemma ReadFrom_WriteTo_roundtrip_witness :
  let f := New 1 1 in
  let target := New 9 9 in
  bf_typed f = true
  /\ exists bytes n f' n',
       WriteTo f [] = (bytes, n, None)
       /\ ReadFrom target bytes = Ok (f', [], n', None)
       /\ Equal f' f = true
       /\ f' = f.
Proof.
  split; [reflexivity|].
  apply (ReadFrom_WriteTo_roundtrip (New 1 1) (New 9 9)). reflexivity.
Defined.


Lemma TestAndAdd_returns_prior_Test_witness :
  let f := FromWithM [5] 100 3 in
  let x := [x61] in
  wf f = true
  /\ exists present f',
       Test sample_hashes f x = Ok present
       /\ TestAndAdd sample_hashes f x = Ok (present, f')
       /\ (forall i, 0 <= i < bf_k f' ->
             exists l, bf_location f' (sample_hashes x) i = Ok l
                       /\ bs_Test (bf_b f') l = Ok true)
       /\ Test sample_hashes f' x = Ok true.
Proof.
  split; [reflexivity|].
  apply (TestAndAdd_returns_prior_Test sample_hashes (FromWithM [5] 100 3) [x61]).
  reflexivity.
Defined.

Lemma Set_Test_never_panic_witness :
  let bs := newAtomicBitSet 100 in
  let i := 99 in
  (bs_wf bs = true /\ 0 <= i < 2 ^ 64)
  /\ (exists bs', bs_Set bs i = Ok bs' /\ bs_wf bs' = true)
  /\ (exists t, bs_Test bs i = Ok t)
  /\ (bs_size bs <= i -> bs_Set bs i = Ok bs /\ bs_Test bs i = Ok false)
  /\ (i < bs_size bs ->
      (Z.to_nat (i / 64) < length (bs_data bs))%nat
      /\ is_Some (bs_data bs !! Z.to_nat (i / 64))).
Proof.
  split; [by_eval|].
  apply (Set_Test_never_panic (newAtomicBitSet 100) 99); by_eval.
Defined.

Lemma TestOrAdd_equiv_TestAndAdd_witness :
  let f := FromWithM [5] 100 3 in
  let x := [x61; x62] in
  words_typed (bs_data (bf_b f)) = true
  /\ TestOrAdd sample_hashes f x = TestAndAdd sample_hashes f x
  /\ (wf f = true ->
      exists present f', TestOrAdd sample_hashes f x = Ok (present, f')).
Proof.
  split; [reflexivity|].
  apply (TestOrAdd_equiv_TestAndAdd sample_hashes (FromWithM [5] 100 3) [x61; x62]).
  reflexivity.
Defined.

(** ** Evaluations *)

Example location_first_probes :
  map (location (10, 20, 30, 40)) [0; 1; 2; 3; 4; 5] = [10; 60; 90; 110; 130; 220].
Proof. reflexivity. Qed.

Example location_wraps :
  location (2 ^ 64 - 1, 0, 5, 0) 4 = 19.
Proof. reflexivity. Qed.

Example Set_bit_63 :
  bs_Set {| bs_data := [0]; bs_size := 64 |} 63
  = Ok {| bs_data := [- 2 ^ 63]; bs_size := 64 |}
  /\ bs_Test {| bs_data := [- 2 ^ 63]; bs_size := 64 |} 63 = Ok true
  /\ bs_Test {| bs_data := [- 2 ^ 63]; bs_size := 64 |} 62 = Ok false.
Proof. repeat split. Qed.

Example Add_then_Test_New_10_3 :
  Add sample_hashes (New 10 3) [x61]
  = Ok {| bf_m := 10; bf_k := 3; bf_b := {| bs_data := [274]; bs_size := 10 |} |}
  /\ Test sample_hashes (New 10 3) [x61] = Ok false.
Proof. repeat split. Qed.

Example WriteTo_New_1_1 :
  WriteTo (New 1 1) []
  = ([ x00; x00; x00; x00; x00; x00; x00; x01;
       x00; x00; x00; x00; x00; x00; x00; x01;
       x00; x00; x00; x00; x00; x00; x00; x01;
       x00; x00; x00; x00; x00; x00; x00; x01;
       x00; x00; x00; x00; x00; x00; x00; x00 ], 40, None).
Proof. reflexivity. Qed.

(** Outside the data model: above [2^64 - 64] the sum [size + 63] wraps and
    [newAtomicBitSet] allocates too few words; [ReadFrom] takes the size and
    the word count as the stream declares them. *)
Example newAtomicBitSet_size_wraps :
  newAtomicBitSet (2 ^ 64 - 1) = {| bs_data := []; bs_size := 2 ^ 64 - 1 |}
  /\ bs_wf (newAtomicBitSet (2 ^ 64 - 1)) = false
  /\ bs_wf {| bs_data := []; bs_size := 64 |} = false.
Proof. repeat split. Qed.

(** * Further properties of the code *)

(** ** Equality *)

Lemma words_equal_eq ws : forall os,
  length ws = length os -> (words_equal ws os = true <-> ws = os).
Proof.
  induction ws as [|w ws IH]; intros [|o os] Hl; simpl in *; try discriminate.
  - tauto.
  - destruct (Z.eqb_spec w o) as [-> | Hne].
    + rewrite IH by lia. split; [intros ->; reflexivity | intros H; congruence].
    + split; [discriminate | intros H; congruence].
Qed.

Lemma bs_Equal_eq bs other : bs_Equal bs other = true <-> bs = other.
Proof.
  unfold bs_Equal. destruct bs as [ws size], other as [os size']. simpl.
  destruct (Z.eqb_spec size size') as [-> | Hs]; simpl.
  - destruct (Nat.eqb_spec (length ws) (length os)) as [Hl | Hl]; simpl.
    + rewrite (words_equal_eq ws os Hl).
      split; [intros ->; reflexivity | intros H; congruence].
    + split; [discriminate | intros H; congruence].
  - split; [discriminate | intros H; congruence].
Qed.

(** X1.  [Equal] decides equality of filters: it is true exactly when the two
    filters have the same [m], the same [k], the same bitset size and the same
    words; so it is reflexive, symmetric and transitive. *)
Theorem Equal_iff_same (f g : BloomFilter) :
  Equal f g = true <->
  bf_m f = bf_m g /\ bf_k f = bf_k g
  /\ bs_size (bf_b f) = bs_size (bf_b g)
  /\ bs_data (bf_b f) = bs_data (bf_b g).
Proof.
  unfold Equal. rewrite !andb_true_iff, !Z.eqb_eq, bs_Equal_eq.
  destruct f as [m k [ws s]], g as [m' k' [ws' s']]. simpl.
  split.
  - intros [[-> ->] H]. injection H as -> ->. tauto.
  - intros (-> & -> & -> & ->). tauto.
Qed.

(** ** Bits of the bitset *)

(** X2.  On a bitset of the data model, [Set(i)] for [i < size] makes
    [Test(i)] true and leaves [Test(j)] as it was for every other index. *)
Theorem Set_then_Test (bs : atomicBitSet) (i j : Z) :
  bs_wf bs = true -> 0 <= i < bs_size bs -> 0 <= j ->
  exists bs',
    bs_Set bs i = Ok bs'
    /\ bs_Test bs' i = Ok true
    /\ (j <> i -> bs_Test bs' j = bs_Test bs j).
Proof.
  intros Hwf Hi Hj. apply bs_wf_spec in Hwf. destruct Hwf as (Hs & Hlen & Hws).
  assert (Hlen' : (bs_size bs + 63) / 64 <= Z.of_nat (length (bs_data bs))) by lia.
  destruct (bs_Set_in bs i Hlen' Hws Hi) as (bs' & Hset & Hbs & Hbl & Hbw & Hbits).
  exists bs'. split; [assumption|].
  assert (Hlen'' : (bs_size bs' + 63) / 64 <= Z.of_nat (length (bs_data bs')))
    by (rewrite Hbs, Hbl; assumption).
  split.
  - rewrite (bs_Test_in bs' i Hlen'' Hbw) by lia.
    rewrite (Hbits i) by lia. rewrite Z.eqb_refl, orb_true_r. reflexivity.
  - intros Hne. destruct (Z.le_gt_cases (bs_size bs) j) as [Hout | Hin].
    + rewrite (bs_Test_out bs j Hout). apply bs_Test_out. lia.
    + rewrite (bs_Test_in bs' j Hlen'' Hbw), (bs_Test_in bs j Hlen' Hws) by lia.
      rewrite (Hbits j Hj). destruct (Z.eqb_spec j i); [contradiction|].
      rewrite orb_false_r. reflexivity.
Qed.

(** ** Union of word arrays of different lengths *)

Lemma InPlaceUnion_loop_short os n : forall i ws,
  (i + n = length ws)%nat -> (i <= length os)%nat ->
  (length os < length ws)%nat ->
  InPlaceUnion_loop n i ws os = Panic IndexOutOfRange.
Proof.
  induction n as [|n IH]; intros i ws Hn Hi Hlt; [lia|]. simpl.
  destruct (lookup_lt_is_Some_2 ws i ltac:(lia)) as [w ->].
  destruct (os !! i) as [o|] eqn:Ho; [|reflexivity].
  apply lookup_lt_Some in Ho.
  apply IH; rewrite ?length_insert; lia.
Qed.

(** X3.  [InPlaceUnion] panics with an index out of range when the other
    bitset has fewer words than the receiver, before returning anything;
    otherwise it ORs the words pairwise, ignores the other bitset's further
    words and keeps the receiver's size. *)
Theorem InPlaceUnion_word_counts (bs other : atomicBitSet) :
  ((length (bs_data other) < length (bs_data bs))%nat ->
     bs_InPlaceUnion bs other = Panic IndexOutOfRange)
  /\ ((length (bs_data bs) <= length (bs_data other))%nat ->
      bs_InPlaceUnion bs other
      = Ok {| bs_data := zip_with Z.lor (bs_data bs) (bs_data other);
              bs_size := bs_size bs |}).
Proof.
  unfold bs_InPlaceUnion. split; intros Hl.
  - rewrite InPlaceUnion_loop_short by lia. reflexivity.
  - destruct (InPlaceUnion_loop_spec (bs_data other) (length (bs_data bs)) 0%nat
                (bs_data bs)) as (ws' & -> & Hlen & _ & Hge); [lia | lia |].
    simpl. do 2 f_equal. apply list_eq. intros j. rewrite lookup_zip_with.
    destruct (bs_data bs !! j) as [w|] eqn:Hw; simpl.
    + destruct (lookup_lt_is_Some_2 (bs_data other) j) as [o Ho].
      { apply lookup_lt_Some in Hw. lia. }
      rewrite Ho. simpl. apply Hge; [lia | assumption | assumption].
    + apply lookup_ge_None. apply lookup_ge_None in Hw. lia.
Qed.

(** ** Hydrating a bitset from raw words *)

Lemma fromAtomicBitSet_loop_words vs : forall i ws,
  fromAtomicBitSet_loop i vs ws
  = take i ws ++ take (length ws - i) vs ++ drop (i + length vs) ws.
Proof.
  induction vs as [|v vs IH]; intros i ws; simpl.
  - rewrite take_nil. simpl. rewrite Nat.add_0_r, take_drop. reflexivity.
  - destruct (Nat.ltb_spec i (length ws)) as [Hlt | Hge].
    + rewrite IH, length_insert.
      destruct (lookup_lt_is_Some_2 ws i Hlt) as [w Hw].
      rewrite (take_S_r (<[i := v]> ws) i v)
        by (apply list_lookup_insert_eq; assumption).
      rewrite take_insert_ge by lia.
      rewrite drop_insert_lt by lia.
      replace (length ws - i)%nat with (S (length ws - S i)) by lia.
      rewrite <- app_assoc. simpl.
      replace (S (i + length vs)) with (i + S (length vs))%nat by lia.
      reflexivity.
    + rewrite IH.
      replace (length ws - S i)%nat with 0%nat by lia.
      replace (length ws - i)%nat with 0%nat by lia.
      rewrite (take_ge ws (S i)), (take_ge ws i) by lia.
      rewrite !drop_ge by lia. reflexivity.
Qed.

Lemma fromAtomicBitSet_data data size :
  bs_data (fromAtomicBitSet data size)
  = take (Z.to_nat (uint64 (size + 63) / 64)) data
    ++ replicate (Z.to_nat (uint64 (size + 63) / 64) - length data) 0.
Proof.
  unfold fromAtomicBitSet, newAtomicBitSet. simpl.
  rewrite fromAtomicBitSet_loop_words, length_replicate. simpl.
  rewrite Nat.sub_0_r, drop_replicate. reflexivity.
Qed.

(** X4.  [fromAtomicBitSet] (and so [FromWithM]) takes the first
    [(size + 63) / 64] of the given words, ignores the others, and pads with
    zero words when fewer are given; the size is the one asked for. *)
Theorem fromAtomicBitSet_words (data : list Z) (size : Z) :
  let numInts := Z.to_nat (uint64 (size + 63) / 64) in
  bs_data (fromAtomicBitSet data size)
  = take numInts data ++ replicate (numInts - length data) 0
  /\ bs_size (fromAtomicBitSet data size) = size
  /\ forall k, BitSet (FromWithM data size k) = fromAtomicBitSet data size.
Proof.
  intros numInts. split; [|split; reflexivity].
  apply fromAtomicBitSet_data.
Qed.

(** X5.  [From(data, k)] keeps exactly the given words: the filter has
    [64 * len(data)] bits, the words of its bitset are [data], and [k] is
    clamped to at least one. *)
Theorem From_keeps_words (data : list Z) (k : Z) :
  Z.of_nat (length data) < 2 ^ 57 ->
  Cap (From data k) = 64 * Z.of_nat (length data)
  /\ K (From data k) = Z.max 1 k
  /\ bs_data (BitSet (From data k)) = data
  /\ bs_size (BitSet (From data k)) = 64 * Z.of_nat (length data).
Proof.
  intros Hl. unfold From.
  assert (Hm : uint64 (int64 (Z.of_nat (length data) * 64))
               = 64 * Z.of_nat (length data)).
  { rewrite int64_id by lia. rewrite uint64_id by lia. lia. }
  rewrite Hm. destruct (FromWithM_params data (64 * Z.of_nat (length data)) k) as [HC HK].
  split; [exact HC|]. split; [exact HK|].
  split; [|reflexivity].
  change (BitSet (FromWithM data (64 * Z.of_nat (length data)) k))
    with (fromAtomicBitSet data (64 * Z.of_nat (length data))).
  rewrite fromAtomicBitSet_data. rewrite uint64_id by lia.
  replace ((64 * Z.of_nat (length data) + 63) / 64) with (Z.of_nat (length data)).
  - rewrite Nat2Z.id, Nat.sub_diag, take_ge by lia. simpl. apply app_nil_r.
  - apply Z.div_unique with 63; lia.
Qed.

(** ** Filters with the same bits *)

(** An [int64] word is determined by its 64 low bits. *)
Lemma int64_ext w w' :
  - 2 ^ 63 <= w < 2 ^ 63 -> - 2 ^ 63 <= w' < 2 ^ 63 ->
  (forall q, 0 <= q < 64 -> Z.testbit w q = Z.testbit w' q) -> w = w'.
Proof.
  intros Hw Hw' Hb. apply Z.bits_inj'. intros q Hq.
  destruct (Z.lt_ge_cases q 64) as [Hlt | Hge]; [apply Hb; lia|].
  rewrite (int64_sign_extended w Hw q), (int64_sign_extended w' Hw' q) by lia.
  apply Hb. lia.
Qed.

Lemma words_ext (ws ws' : list Z) :
  length ws = length ws' -> words_ok ws -> words_ok ws' ->
  (forall j, 0 <= j ->
     bs_bit {| bs_data := ws; bs_size := 0 |} j
     = bs_bit {| bs_data := ws'; bs_size := 0 |} j) ->
  ws = ws'.
Proof.
  intros Hl Hws Hws' Hb. apply list_eq. intros i.
  destruct (ws !! i) as [w|] eqn:Hw.
  - destruct (lookup_lt_is_Some_2 ws' i) as [w' Hw'].
    { apply lookup_lt_Some in Hw. lia. }
    rewrite Hw'. f_equal. apply int64_ext.
    + exact (Forall_lookup_1 _ _ _ _ Hws Hw).
    + exact (Forall_lookup_1 _ _ _ _ Hws' Hw').
    + intros q Hq. specialize (Hb (64 * Z.of_nat i + q) ltac:(lia)).
      unfold bs_bit in Hb. simpl in Hb.
      replace ((64 * Z.of_nat i + q) / 64) with (Z.of_nat i) in Hb
        by (apply Z.div_unique with q; lia).
      replace ((64 * Z.of_nat i + q) mod 64) with q in Hb
        by (apply Z.mod_unique with (Z.of_nat i); lia).
      rewrite Nat2Z.id, Hw, Hw' in Hb. exact Hb.
  - symmetry. apply lookup_ge_None. apply lookup_ge_None in Hw. lia.
Qed.

(** Two filters of the data model with the same parameters and the same bits
    are the same filter. *)
Lemma filter_ext f g :
  wf f = true -> wf g = true -> bf_m f = bf_m g -> bf_k f = bf_k g ->
  (forall j, 0 <= j -> bs_bit (bf_b f) j = bs_bit (bf_b g) j) ->
  f = g.
Proof.
  intros Hf Hg Hm Hk Hb.
  apply wf_spec in Hf. destruct Hf as (Hfm & Hfk & Hfs & Hfb).
  apply bs_wf_spec in Hfb. destruct Hfb as (Hf1 & Hf2 & Hf3).
  apply wf_spec in Hg. destruct Hg as (Hgm & Hgk & Hgs & Hgb).
  apply bs_wf_spec in Hgb. destruct Hgb as (Hg1 & Hg2 & Hg3).
  destruct f as [m k [ws s]], g as [m' k' [ws' s']]. simpl in *. subst.
  do 2 f_equal. apply words_ext; try assumption.
  apply Nat2Z.inj. congruence.
Qed.

Lemma existsb_eqb_true j (ls : list Z) : existsb (Z.eqb j) ls = true -> In j ls.
Proof.
  intros H. apply existsb_exists in H. destruct H as (l & Hl & He).
  apply Z.eqb_eq in He. subst. assumption.
Qed.

Lemma filter_eta f :
  f = {| bf_m := bf_m f; bf_k := bf_k f;
         bf_b := {| bs_data := bs_data (bf_b f); bs_size := bs_size (bf_b f) |} |}.
Proof. destruct f as [m k [ws s]]. reflexivity. Qed.

Lemma Merge_value f g :
  wf f = true -> wf g = true -> bf_m f = bf_m g -> bf_k f = bf_k g ->
  Merge f g
  = Ok (None, with_b f {| bs_data := zip_with Z.lor (bs_data (bf_b f))
                                       (bs_data (bf_b g));
                          bs_size := bs_size (bf_b f) |}).
Proof.
  intros Hf Hg Hm Hk.
  destruct (Merge_match f g Hf Hg Hm Hk)
    as (f' & -> & _ & Hm' & Hk' & Hs & Hd & _).
  do 2 f_equal. destruct f' as [m' k' [ws' s']]. simpl in *. subst.
  reflexivity.
Qed.

Section Algebra.

Variable baseHashes : list byte -> hashes.

(** X6.  A key that tests present is already there: on a filter of the data
    model where [Test(x)] is true, [Add(x)] leaves the filter exactly as it
    is, and [TestAndAdd(x)] and [TestOrAdd(x)] return true and leave it as it
    is. *)
Theorem Add_of_present_key (f : BloomFilter) (x : list byte) :
  wf f = true -> Test baseHashes f x = Ok true ->
  Add baseHashes f x = Ok f
  /\ TestAndAdd baseHashes f x = Ok (true, f)
  /\ TestOrAdd baseHashes f x = Ok (true, f).
Proof.
  intros Hwf Ht.
  destruct (Add_spec baseHashes f x Hwf) as (f' & Hadd & Hwf' & Hm & Hk & Hbits).
  assert (Hf : f' = f).
  { apply filter_ext; try assumption. intros j Hj. rewrite (Hbits j Hj).
    destruct (existsb (Z.eqb j) _) eqn:He; [|apply orb_false_r].
    apply existsb_eqb_true in He.
    rewrite (Test_spec baseHashes f x Hwf) in Ht. injection Ht as Ht.
    rewrite forallb_forall in Ht. rewrite (Ht j He). reflexivity. }
  subst f'. split; [assumption|].
  destruct (TestAndAdd_spec baseHashes f x Hwf) as (p & f'' & Ht' & Htaa & Hadd').
  rewrite Ht in Ht'. injection Ht' as <-.
  rewrite Hadd in Hadd'. injection Hadd' as <-.
  split; [assumption|].
  destruct (wf_facts f Hwf) as (_ & _ & _ & Hws).
  rewrite (TestOrAdd_TestAndAdd baseHashes f x Hws). assumption.
Qed.

(** X7.  Adding is idempotent and the order of additions does not matter:
    on a filter of the data model, adding [x] twice gives the filter that
    adding it once gives, and adding [x] then [y] gives the filter that adding
    [y] then [x] gives. *)
Theorem Add_idempotent_commutative (f : BloomFilter) (x y : list byte) :
  wf f = true ->
  exists fx fy fxy,
    Add baseHashes f x = Ok fx
    /\ Add baseHashes fx x = Ok fx
    /\ Add baseHashes f y = Ok fy
    /\ Add baseHashes fx y = Ok fxy
    /\ Add baseHashes fy x = Ok fxy.
Proof.
  intros Hwf.
  destruct (Add_spec baseHashes f x Hwf) as (fx & Hx & Hwx & Hmx & Hkx & Hbx).
  destruct (Add_spec baseHashes f y Hwf) as (fy & Hy & Hwy & Hmy & Hky & Hby).
  destruct (Add_spec baseHashes fx x Hwx) as (fxx & Hxx & Hwxx & Hmxx & Hkxx & Hbxx).
  destruct (Add_spec baseHashes fx y Hwx) as (fxy & Hxy & Hwxy & Hmxy & Hkxy & Hbxy).
  destruct (Add_spec baseHashes fy x Hwy) as (fyx & Hyx & Hwyx & Hmyx & Hkyx & Hbyx).
  assert (E1 : fxx = fx).
  { apply filter_ext; try assumption. intros j Hj.
    rewrite (Hbxx j Hj), (Hbx j Hj), Hmx, Hkx.
    destruct (bs_bit (bf_b f) j), (existsb _ _); reflexivity. }
  assert (E2 : fyx = fxy).
  { apply filter_ext; try assumption; try congruence. intros j Hj.
    rewrite (Hbyx j Hj), (Hby j Hj), (Hbxy j Hj), (Hbx j Hj), Hmx, Hkx, Hmy, Hky.
    destruct (bs_bit (bf_b f) j), (existsb _ _), (existsb _ _); reflexivity. }
  subst. exists fx, fy, fxy. repeat split; assumption.
Qed.

(** X8.  [Merge] is the union of the key sets: merging into [f] a filter to
    which [x] was added gives the filter obtained by merging first and adding
    [x] afterwards. *)
Theorem Merge_of_Add (f g : BloomFilter) (x : list byte) :
  wf f = true -> wf g = true -> bf_m f = bf_m g -> bf_k f = bf_k g ->
  exists gx fg fgx,
    Add baseHashes g x = Ok gx
    /\ Merge f gx = Ok (None, fgx)
    /\ Merge f g = Ok (None, fg)
    /\ Add baseHashes fg x = Ok fgx.
Proof.
  intros Hf Hg Hm Hk.
  destruct (Add_spec baseHashes g x Hg) as (gx & Hgx & Hwgx & Hmgx & Hkgx & Hbgx).
  destruct (Merge_match f g Hf Hg Hm Hk)
    as (fg & Hfg & Hwfg & Hmfg & Hkfg & _ & _ & Hbfg).
  destruct (Merge_match f gx Hf Hwgx ltac:(congruence) ltac:(congruence))
    as (fgx & Hfgx & Hwfgx & Hmfgx & Hkfgx & _ & _ & Hbfgx).
  destruct (Add_spec baseHashes fg x Hwfg) as (fgx' & Hadd & Hw' & Hm' & Hk' & Hb').
  assert (E : fgx' = fgx).
  { apply filter_ext; try assumption; try congruence. intros j Hj.
    rewrite (Hb' j Hj), Hbfg, Hbfgx, (Hbgx j Hj), Hmfg, Hkfg, Hm, Hk.
    rewrite orb_assoc. reflexivity. }
  subst. exists gx, fg, fgx. repeat split; assumption.
Qed.

End Algebra.

Lemma zip_with_lor_comm (ws os : list Z) :
  zip_with Z.lor ws os = zip_with Z.lor os ws.
Proof.
  revert os. induction ws as [|w ws IH]; intros [|o os]; simpl; try reflexivity.
  rewrite Z.lor_comm, IH. reflexivity.
Qed.

Lemma zip_with_lor_diag (ws : list Z) : zip_with Z.lor ws ws = ws.
Proof.
  induction ws as [|w ws IH]; simpl; [reflexivity|].
  rewrite Z.lor_diag, IH. reflexivity.
Qed.

Lemma zip_with_lor_assoc (ws os us : list Z) :
  zip_with Z.lor (zip_with Z.lor ws os) us
  = zip_with Z.lor ws (zip_with Z.lor os us).
Proof.
  revert os us. induction ws as [|w ws IH]; intros [|o os] [|u us]; simpl;
    try reflexivity.
  rewrite Z.lor_assoc, IH. reflexivity.
Qed.

(** X9.  On filters of the data model with the same [m] and [k], [Merge] is
    idempotent, commutative and associative in the words it leaves: merging a
    filter with itself changes nothing, [f.Merge(g)] and [g.Merge(f)] leave
    the same filter, and merging [g] then [h] into [f] leaves what merging
    into [f] the merge of [h] into [g] leaves. *)
Theorem Merge_semilattice (f g h : BloomFilter) :
  wf f = true -> wf g = true -> wf h = true ->
  bf_m f = bf_m g -> bf_k f = bf_k g -> bf_m g = bf_m h -> bf_k g = bf_k h ->
  Merge f f = Ok (None, f)
  /\ exists fg gh,
       Merge f g = Ok (None, fg)
       /\ Merge g f = Ok (None, fg)
       /\ Merge g h = Ok (None, gh)
       /\ exists fgh, Merge fg h = Ok (None, fgh) /\ Merge f gh = Ok (None, fgh).
Proof.
  intros Hf Hg Hh Hm Hk Hm' Hk'.
  destruct (proj1 (wf_spec f) Hf) as (Hfm & Hfk & Hfs & _).
  destruct (proj1 (wf_spec g) Hg) as (Hgm & Hgk & Hgs & _).
  split.
  - rewrite (Merge_value f f) by (reflexivity || assumption).
    rewrite zip_with_lor_diag. do 2 f_equal. destruct f as [m k [ws s]]. reflexivity.
  - destruct (Merge_match f g) as (fg & Hfg & Hwfg & Hmfg & Hkfg & Hsfg & Hdfg & _);
      try assumption.
    destruct (Merge_match g h) as (gh & Hgh & Hwgh & Hmgh & Hkgh & Hsgh & Hdgh & _);
      try assumption.
    exists fg, gh. split; [assumption|]. split.
    { rewrite (Merge_value g f) by (assumption || congruence).
      rewrite (filter_eta fg), Hmfg, Hkfg, Hsfg, Hdfg.
      rewrite (zip_with_lor_comm (bs_data (bf_b g))).
      unfold with_b. simpl. rewrite Hfs, Hgs, Hm, Hk. reflexivity. }
    split; [assumption|].
    eexists. split.
    + apply Merge_value; (assumption || congruence).
    + rewrite (Merge_value f gh) by (assumption || congruence).
      rewrite Hdfg, Hdgh, zip_with_lor_assoc.
      unfold with_b. simpl. rewrite Hmfg, Hkfg, Hsfg. reflexivity.
Qed.

(** ** Empty filters *)

Lemma bs_bit_zeros n size j :
  bs_bit {| bs_data := replicate n 0; bs_size := size |} j = false.
Proof.
  unfold bs_bit. simpl.
  destruct (replicate n 0 !! Z.to_nat (j / 64)) as [w|] eqn:Hw; [|reflexivity].
  apply lookup_replicate in Hw. destruct Hw as [-> _]. apply Z.bits_0.
Qed.

Lemma Count_zeros n size :
  bs_Count {| bs_data := replicate n 0; bs_size := size |} = 0.
Proof.
  unfold bs_Count. simpl. induction n as [|n IH]; [reflexivity|]. exact IH.
Qed.

Lemma map_zero_replicate (ws : list Z) :
  map (fun _ => 0) ws = replicate (length ws) 0.
Proof. induction ws as [|w ws IH]; simpl; [reflexivity|]. rewrite IH. reflexivity. Qed.

(** A filter of the data model with [k >= 1] and no bit set tests no key
    present. *)
Lemma Test_no_bits (baseHashes : list byte -> hashes) f x :
  wf f = true -> 1 <= bf_k f ->
  (forall j, bs_bit (bf_b f) j = false) ->
  Test baseHashes f x = Ok false.
Proof.
  intros Hwf Hk Hb. rewrite (Test_spec baseHashes f x Hwf). f_equal.
  destruct (Z.to_nat (bf_k f)) as [|n] eqn:Hn; [lia|]. simpl.
  rewrite Hb. reflexivity.
Qed.


(** X11.  [ClearAll] on a filter of the data model keeps the data model and
    the parameters and clears every bit: the count of set bits is zero, every
    key tests absent (for [k >= 1]), and the filter is the one [New] builds
    from the same [m] and [k]. *)
Theorem ClearAll_empties (baseHashes : list byte -> hashes) (f : BloomFilter)
    (x : list byte) :
  wf f = true -> 1 <= bf_k f ->
  wf (ClearAll f) = true
  /\ Cap (ClearAll f) = Cap f /\ K (ClearAll f) = K f
  /\ bs_Count (BitSet (ClearAll f)) = 0
  /\ Test baseHashes (ClearAll f) x = Ok false
  /\ (bf_m f <= 2 ^ 64 - 64 -> ClearAll f = New (bf_m f) (bf_k f)).
Proof.
  intros Hwf Hk.
  assert (Hc : wf (ClearAll f) = true).
  { apply wf_with_b; [assumption | reflexivity | |].
    - simpl. apply length_map.
    - simpl. rewrite map_zero_replicate. apply Forall_replicate. lia. }
  split; [assumption|]. split; [reflexivity|]. split; [reflexivity|].
  split.
  { unfold ClearAll, BitSet, bs_ClearAll. simpl. rewrite map_zero_replicate.
    apply Count_zeros. }
  split.
  { apply Test_no_bits; [assumption | assumption |].
    intros j. unfold ClearAll, bs_ClearAll. simpl. rewrite map_zero_replicate.
    apply bs_bit_zeros. }
  intros Hm.
  destruct (proj1 (wf_spec f) Hwf) as (Hfm & Hfk & Hfs & Hfb).
  apply bs_wf_spec in Hfb. destruct Hfb as (_ & Hlen & _).
  unfold ClearAll, New, bs_ClearAll, newAtomicBitSet, with_b. simpl.
  rewrite !max_spec, !Z.max_r by lia. rewrite map_zero_replicate.
  rewrite uint64_id by lia. rewrite <- Hfs, Hlen, Nat2Z.id. reflexivity.
Qed.

(** ** Copies *)

Lemma Copy_loop_spec src n : forall i dst,
  (i + n = length src)%nat -> (length src <= length dst)%nat ->
  Copy_loop n i src dst = Ok (take i dst ++ drop i src ++ drop (length src) dst).
Proof.
  induction n as [|n IH]; intros i dst Hn Hl; simpl.
  - rewrite (drop_ge src) by lia. simpl.
    replace (length src) with i by lia. rewrite take_drop. reflexivity.
  - destruct (lookup_lt_is_Some_2 src i ltac:(lia)) as [v Hv].
    destruct (lookup_lt_is_Some_2 dst i ltac:(lia)) as [d Hd].
    rewrite Hv, Hd. rewrite IH by (rewrite ?length_insert; lia).
    rewrite (take_S_r (<[i := v]> dst) i v)
      by (apply list_lookup_insert_eq; apply lookup_lt_Some in Hd; assumption).
    rewrite take_insert_ge by lia. rewrite drop_insert_lt by lia.
    rewrite (drop_S src v i Hv). rewrite <- app_assoc. reflexivity.
Qed.

(** X12.  [Copy] of a filter of the data model does not panic and gives a
    filter with the same [m], the same bitset and [k] clamped to at least
    one: for [k >= 1] the copy is the filter itself, [Equal] to it; a filter
    with [k = 0] (which only decoding can give) is copied with [k = 1]. *)
Theorem Copy_same_bits (f : BloomFilter) :
  wf f = true -> bf_m f <= 2 ^ 64 - 64 ->
  exists c,
    Copy f = Ok c
    /\ Cap c = Cap f /\ K c = Z.max 1 (K f) /\ BitSet c = BitSet f
    /\ (1 <= bf_k f -> c = f /\ Equal c f = true).
Proof.
  intros Hwf Hm.
  destruct (proj1 (wf_spec f) Hwf) as (Hfm & Hfk & Hfs & Hfb).
  apply bs_wf_spec in Hfb. destruct Hfb as (_ & Hlen & _).
  unfold Copy.
  assert (Hnew : bs_data (bf_b (New (bf_m f) (bf_k f)))
                 = replicate (length (bs_data (bf_b f))) 0).
  { unfold New, newAtomicBitSet. simpl. rewrite max_spec, Z.max_r by lia.
    rewrite uint64_id by lia. rewrite <- Hfs, Hlen, Nat2Z.id. reflexivity. }
  rewrite Hnew.
  rewrite Copy_loop_spec by (rewrite ?length_replicate; lia).
  simpl. rewrite drop_0, drop_replicate, Nat.sub_diag. simpl. rewrite app_nil_r.
  eexists. split; [reflexivity|].
  unfold Cap, K, BitSet, New, with_b. simpl. rewrite !max_spec.
  rewrite (Z.max_r 1 (bf_m f)) by lia.
  split; [reflexivity|]. split; [reflexivity|].
  split; [rewrite <- Hfs; destruct f as [m k [ws s]]; reflexivity|].
  intros Hk. rewrite Z.max_r by lia.
  assert (E : {| bf_m := bf_m f; bf_k := bf_k f;
                 bf_b := {| bs_data := bs_data (bf_b f); bs_size := bf_m f |} |} = f).
  { clear - Hfs. destruct f as [m k [ws s]]. simpl in *. subst. reflexivity. }
  rewrite E. split; [reflexivity | apply Equal_refl].
Qed.

(** ** Precomputed locations *)




(** ** Counting bits *)

Lemma ones_range n x : 0 <= ones n x <= Z.of_nat n.
Proof.
  induction n as [|n IH]; simpl ones; [lia|].
  destruct (Z.testbit x (Z.of_nat n)); simpl Z.b2z; lia.
Qed.

Lemma ones_total_range ws : 0 <= ones_total ws <= 64 * Z.of_nat (length ws).
Proof.
  induction ws as [|w ws IH]; simpl; [lia|].
  pose proof (ones_range 64 (uint64 w)). unfold OnesCount64. lia.
Qed.

(** Within 64 bits the running sum of [Count] does not wrap. *)
Lemma Count_total ws : forall count,
  0 <= count -> count + 64 * Z.of_nat (length ws) < 2 ^ 64 ->
  fold_left (fun count w => uint64 (count + OnesCount64 (uint64 w))) ws count
  = count + ones_total ws.
Proof.
  induction ws as [|w ws IH]; intros count H0 Hb; simpl; [lia|].
  pose proof (ones_range 64 (uint64 w)) as Hw. fold (OnesCount64 (uint64 w)) in Hw.
  simpl length in Hb. rewrite uint64_id by lia. rewrite IH by lia. lia.
Qed.

Lemma testbit_uint64 z q : 0 <= q < 64 -> Z.testbit (uint64 z) q = Z.testbit z q.
Proof. intros Hq. unfold uint64. apply Z.mod_pow2_bits_low. lia. Qed.

Lemma ones_lor_mask w pos n :
  (n <= 64)%nat -> 0 <= pos < 64 ->
  ones n (uint64 (Z.lor w (bit_mask pos)))
  = ones n (uint64 w)
    + (if (pos <? Z.of_nat n) && negb (Z.testbit w pos) then 1 else 0).
Proof.
  intros Hn Hpos. induction n as [|n IH]; simpl ones.
  - destruct (Z.ltb_spec pos (Z.of_nat 0)); [lia | reflexivity].
  - rewrite IH by lia. rewrite !testbit_uint64 by lia.
    rewrite lor_mask_bits by lia.
    destruct (Z.eqb_spec (Z.of_nat n) pos) as [<- | Hne].
    + destruct (Z.ltb_spec (Z.of_nat n) (Z.of_nat n)); [lia|].
      destruct (Z.ltb_spec (Z.of_nat n) (Z.of_nat (S n))); [|lia].
      destruct (Z.testbit w (Z.of_nat n)); simpl; lia.
    + rewrite orb_false_r.
      destruct (Z.ltb_spec pos (Z.of_nat n)), (Z.ltb_spec pos (Z.of_nat (S n)));
        try lia; reflexivity.
Qed.

Lemma ones_total_insert ws : forall i w w',
  ws !! i = Some w ->
  ones_total (<[i := w']> ws)
  = ones_total ws - OnesCount64 (uint64 w) + OnesCount64 (uint64 w').
Proof.
  induction ws as [|v ws IH]; intros [|i] w w' Hw; simpl in *; try discriminate.
  - injection Hw as ->. lia.
  - rewrite (IH i w w' Hw). lia.
Qed.

(** X14.  On a bitset of the data model, [Count] is the number of one bits of
    the words, at most 64 per word, and [Set(i)] for [i < size] raises it by
    exactly one when bit [i] was not set and leaves it as it is when the bit
    was set. *)
Theorem Set_raises_Count (bs : atomicBitSet) (i : Z) :
  bs_wf bs = true -> bs_size bs <= 2 ^ 64 - 64 -> 0 <= i < bs_size bs ->
  exists bs',
    bs_Set bs i = Ok bs'
    /\ bs_Count bs' = bs_Count bs + (if bs_bit bs i then 0 else 1)
    /\ bs_Count bs = ones_total (bs_data bs)
    /\ 0 <= bs_Count bs <= 64 * Z.of_nat (length (bs_data bs)).
Proof.
  intros Hwf Hmax Hi. apply bs_wf_spec in Hwf. destruct Hwf as (Hs & Hlen & Hws).
  assert (Hb : 64 * Z.of_nat (length (bs_data bs)) < 2 ^ 64).
  { rewrite <- Hlen.
    pose proof (Z.mul_div_le (bs_size bs + 63) 64 ltac:(lia)). lia. }
  assert (Hc : bs_Count bs = ones_total (bs_data bs)).
  { unfold bs_Count. rewrite Count_total; lia. }
  unfold bs_Set. destruct (Z.leb_spec (bs_size bs) i); [lia|].
  destruct (word_lookup (bs_data bs) (bs_size bs) i ltac:(lia) Hi) as [w Hw].
  rewrite Hw. eexists. split; [reflexivity|].
  assert (Hpos : 0 <= i mod 64 < 64) by (apply Z.mod_pos_bound; lia).
  split; [|split; [exact Hc | rewrite Hc; apply ones_total_range]].
  rewrite Hc. unfold bs_Count. simpl.
  rewrite Count_total by (rewrite ?length_insert; lia).
  rewrite (ones_total_insert _ _ w _ Hw).
  unfold OnesCount64 at 2. rewrite (ones_lor_mask w (i mod 64) 64) by lia.
  unfold bs_bit. rewrite Hw. fold (OnesCount64 (uint64 w)).
  destruct (Z.ltb_spec (i mod 64) (Z.of_nat 64)); [|lia].
  destruct (Z.testbit w (i mod 64)); simpl; lia.
Qed.

(** ** More on the wire format *)

Lemma bs_WriteTo_loop_total ws : forall stream total,
  - 2 ^ 63 <= total -> total + 8 * Z.of_nat (length ws) < 2 ^ 63 ->
  bs_WriteTo_loop ws stream total
  = (stream ++ wire_words ws, total + 8 * Z.of_nat (length ws)).
Proof.
  induction ws as [|w ws IH]; intros stream total H0 Hb.
  - simpl. rewrite app_nil_r. f_equal. lia.
  - change (wire_words (w :: ws)) with (PutUint64 (uint64 w) ++ wire_words ws).
    cbn [bs_WriteTo_loop]. simpl length in Hb.
    rewrite int64_id by lia. rewrite IH by lia.
    unfold binary_Write. rewrite <- app_assoc. f_equal. simpl length. lia.
Qed.

Lemma WriteTo_value f stream :
  bf_typed f = true -> Z.of_nat (length (bs_data (bf_b f))) < 2 ^ 59 ->
  WriteTo f stream
  = (stream ++ wire_BloomFilter (bf_m f) (bf_k f) (bs_size (bf_b f))
                 (bs_data (bf_b f)),
     32 + 8 * Z.of_nat (length (bs_data (bf_b f))), None).
Proof.
  unfold bf_typed. rewrite !andb_true_iff, !is_uint64_spec, Z.ltb_lt.
  intros ((((Hm & Hk) & Hs) & _) & _) Hlen. unfold WriteTo, bs_WriteTo.
  change (int64 (8 + 8)) with 16.
  rewrite bs_WriteTo_loop_total by lia.
  rewrite int64_id by lia.
  unfold binary_Write, wire_BloomFilter, wire_BitSet.
  rewrite !(uint64_id (uint64 _)) by apply uint64_range.
  rewrite (uint64_id (bf_m f)), (uint64_id (bf_k f)),
    (uint64_id (bs_size (bf_b f))) by assumption.
  rewrite (uint64_id (Z.of_nat _)) by lia.
  rewrite <- !app_assoc. do 2 f_equal. lia.
Qed.

Lemma bs_ReadFrom_loop_total ws : forall done rest total,
  words_ok ws ->
  - 2 ^ 63 <= total -> total + 8 * Z.of_nat (length ws) < 2 ^ 63 ->
  bs_ReadFrom_loop (length ws) (length done)
    (done ++ replicate (length ws) 0) (wire_words ws ++ rest) total
  = (done ++ ws, rest, total + 8 * Z.of_nat (length ws), None).
Proof.
  induction ws as [|w ws IH]; intros done rest total Hws H0 Hb.
  - simpl. rewrite app_nil_r. do 2 f_equal. lia.
  - apply Forall_cons in Hws. destruct Hws as [Hw Hws]. simpl length in Hb.
    change (wire_words (w :: ws)) with (PutUint64 (uint64 w) ++ wire_words ws).
    cbn [length replicate bs_ReadFrom_loop].
    rewrite <- app_assoc.
    rewrite binary_Read_PutUint64 by apply uint64_range.
    rewrite (int64_uint64 w Hw). rewrite int64_id by lia.
    replace (<[length done := w]> (done ++ 0 :: replicate (length ws) 0))
      with ((done ++ [w]) ++ replicate (length ws) 0).
    + replace (S (length done)) with (length (done ++ [w]))
        by (rewrite length_app; simpl; lia).
      rewrite IH by (assumption || lia).
      rewrite <- app_assoc. do 2 f_equal. lia.
    + rewrite <- app_assoc. simpl. symmetry.
      replace (length done) with (length done + 0)%nat at 1 by lia.
      rewrite insert_app_r. reflexivity.
Qed.

Lemma ReadFrom_value f m k size ws rest :
  0 <= m < 2 ^ 64 -> 0 <= k < 2 ^ 64 -> 0 <= size < 2 ^ 64 ->
  words_ok ws -> Z.of_nat (length ws) < 2 ^ 59 ->
  ReadFrom f (wire_BloomFilter m k size ws ++ rest)
  = Ok ({| bf_m := m; bf_k := k;
           bf_b := {| bs_data := ws; bs_size := size |} |}, rest,
        32 + 8 * Z.of_nat (length ws), None).
Proof.
  intros Hm Hk Hs Hws Hlen. unfold ReadFrom, bs_ReadFrom, wire_BloomFilter, wire_BitSet.
  rewrite <- !app_assoc.
  rewrite !binary_Read_PutUint64 by lia.
  destruct (Z.leb_spec (2 ^ 63) (Z.of_nat (length ws))); [lia|].
  rewrite Nat2Z.id.
  pose proof (bs_ReadFrom_loop_total ws [] rest 16 Hws ltac:(lia) ltac:(lia)) as Hl.
  simpl in Hl. rewrite Hl. simpl.
  rewrite (uint64_id m), (uint64_id k) by assumption.
  change (int64 (8 + 8)) with 16. rewrite int64_id by lia.
  do 3 f_equal. lia.
Qed.

Lemma bf_typed_facts f :
  bf_typed f = true ->
  0 <= bf_m f < 2 ^ 64 /\ 0 <= bf_k f < 2 ^ 64
  /\ 0 <= bs_size (bf_b f) < 2 ^ 64 /\ words_ok (bs_data (bf_b f)).
Proof.
  unfold bf_typed.
  rewrite !andb_true_iff, !is_uint64_spec, Z.ltb_lt, words_typed_ok. tauto.
Qed.

(** X15.  [WriteTo] appends [32 + 8 * words] bytes to the stream and returns
    that number; [ReadFrom] on those bytes followed by anything consumes
    exactly them, returns the same number and no error, leaves the bytes that
    follow, and restores the filter. *)
Theorem WriteTo_ReadFrom_counts (f target : BloomFilter) (stream rest : list byte) :
  bf_typed f = true -> Z.of_nat (length (bs_data (bf_b f))) < 2 ^ 59 ->
  exists bytes,
    Z.of_nat (length bytes) = 32 + 8 * Z.of_nat (length (bs_data (bf_b f)))
    /\ WriteTo f stream
       = (stream ++ bytes, 32 + 8 * Z.of_nat (length (bs_data (bf_b f))), None)
    /\ ReadFrom target (bytes ++ rest)
       = Ok (f, rest, 32 + 8 * Z.of_nat (length (bs_data (bf_b f))), None).
Proof.
  intros Ht Hlen. destruct (bf_typed_facts f Ht) as (Hm & Hk & Hs & Hws).
  eexists. split; [|split; [apply WriteTo_value; assumption|]].
  - rewrite length_wire_BloomFilter. lia.
  - rewrite ReadFrom_value by assumption. rewrite <- (filter_eta f). reflexivity.
Qed.

(** X16.  Filters written one after the other to the same stream are read
    back in that order: the first [ReadFrom] restores the first filter and
    leaves the stream at the start of the second. *)
Theorem ReadFrom_in_sequence (f1 f2 t1 t2 : BloomFilter) :
  bf_typed f1 = true -> bf_typed f2 = true ->
  Z.of_nat (length (bs_data (bf_b f1))) < 2 ^ 59 ->
  Z.of_nat (length (bs_data (bf_b f2))) < 2 ^ 59 ->
  exists s1 s2 n1 n2 rest,
    WriteTo f1 [] = (s1, n1, None)
    /\ WriteTo f2 s1 = (s2, n2, None)
    /\ ReadFrom t1 s2 = Ok (f1, rest, n1, None)
    /\ ReadFrom t2 rest = Ok (f2, [], n2, None).
Proof.
  intros H1 H2 L1 L2.
  destruct (bf_typed_facts f1 H1) as (Hm1 & Hk1 & Hs1 & Hws1).
  destruct (bf_typed_facts f2 H2) as (Hm2 & Hk2 & Hs2 & Hws2).
  exists (wire_BloomFilter (bf_m f1) (bf_k f1) (bs_size (bf_b f1)) (bs_data (bf_b f1))),
    (wire_BloomFilter (bf_m f1) (bf_k f1) (bs_size (bf_b f1)) (bs_data (bf_b f1))
     ++ wire_BloomFilter (bf_m f2) (bf_k f2) (bs_size (bf_b f2)) (bs_data (bf_b f2))),
    (32 + 8 * Z.of_nat (length (bs_data (bf_b f1)))),
    (32 + 8 * Z.of_nat (length (bs_data (bf_b f2)))),
    (wire_BloomFilter (bf_m f2) (bf_k f2) (bs_size (bf_b f2)) (bs_data (bf_b f2))).
  split; [exact (WriteTo_value f1 [] H1 L1)|].
  split; [apply WriteTo_value; assumption|].
  split.
  - rewrite ReadFrom_value by assumption. rewrite <- (filter_eta f1). reflexivity.
  - rewrite <- (app_nil_r (wire_BloomFilter _ _ _ _)).
    rewrite ReadFrom_value by assumption. rewrite <- (filter_eta f2). reflexivity.
Qed.

Lemma ReadFrom_wire_typed f target :
  bf_typed f = true ->
  exists n,
    ReadFrom target (wire_BloomFilter (bf_m f) (bf_k f) (bs_size (bf_b f))
                       (bs_data (bf_b f)))
    = Ok (f, [], n, None).
Proof.
  intros Ht. destruct (bf_typed_facts f Ht) as (Hm & Hk & Hs & Hws).
  unfold bf_typed in Ht. rewrite !andb_true_iff, Z.ltb_lt in Ht.
  destruct Ht as (_ & Hlen).
  destruct (ReadFrom_wire target (bf_m f) (bf_k f) (bs_size (bf_b f))
              (bs_data (bf_b f)) [] Hm Hk Hs Hws Hlen) as [n Hr].
  rewrite app_nil_r, <- (filter_eta f) in Hr. exists n. exact Hr.
Qed.

(** X17.  The binary form determines the filter: [MarshalBinary] and
    [GobEncode] give the same bytes without error, [UnmarshalBinary] and
    [GobDecode] restore the filter from them, and two filters with the same
    bytes are the same filter. *)
Theorem MarshalBinary_injective (f g target : BloomFilter) :
  bf_typed f = true -> bf_typed g = true ->
  (exists bytes,
     MarshalBinary f = (bytes, None) /\ GobEncode f = (bytes, None)
     /\ UnmarshalBinary target bytes = Ok (f, None)
     /\ GobDecode target bytes = Ok (f, None))
  /\ (MarshalBinary f = MarshalBinary g -> f = g).
Proof.
  intros Hf Hg.
  destruct (WriteTo_wire f [] Hf) as [nf Hwf].
  destruct (WriteTo_wire g [] Hg) as [ng Hwg].
  change ([] ++ ?x) with x in Hwf, Hwg.
  destruct (ReadFrom_wire_typed g target Hg) as [n2 Hr2].
  destruct (ReadFrom_wire_typed f target Hf) as [n3 Hr3].
  split.
  - exists (wire_BloomFilter (bf_m f) (bf_k f) (bs_size (bf_b f)) (bs_data (bf_b f))).
    unfold MarshalBinary, GobEncode, UnmarshalBinary, GobDecode.
    rewrite Hwf, Hr3. repeat split.
  - unfold MarshalBinary. rewrite Hwf, Hwg. intros E.
    pose proof (f_equal fst E) as E'.
    change (wire_BloomFilter (bf_m f) (bf_k f) (bs_size (bf_b f)) (bs_data (bf_b f))
            = wire_BloomFilter (bf_m g) (bf_k g) (bs_size (bf_b g)) (bs_data (bf_b g)))
      in E'.
    rewrite E' in Hr3. rewrite Hr3 in Hr2. congruence.
Qed.

(** X18.  A stream whose header declares [2^63] words or more makes
    [ReadFrom] (and so [UnmarshalBinary]) panic when it allocates the word
    slice, whatever follows the header. *)
Theorem ReadFrom_huge_word_count (f : BloomFilter) (m k size count : Z)
    (rest : list byte) :
  0 <= m < 2 ^ 64 -> 0 <= k < 2 ^ 64 -> 0 <= size < 2 ^ 64 ->
  2 ^ 63 <= count < 2 ^ 64 ->
  let header := PutUint64 m ++ PutUint64 k ++ PutUint64 size ++ PutUint64 count in
  ReadFrom f (header ++ rest) = Panic MakeSliceLenOutOfRange
  /\ UnmarshalBinary f (header ++ rest) = Panic MakeSliceLenOutOfRange.
Proof.
  intros Hm Hk Hs Hc header.
  assert (H : ReadFrom f (header ++ rest) = Panic MakeSliceLenOutOfRange).
  { unfold header, ReadFrom, bs_ReadFrom. rewrite <- !app_assoc.
    rewrite !binary_Read_PutUint64 by lia.
    destruct (Z.leb_spec (2 ^ 63) count); [reflexivity | lia]. }
  split; [exact H|]. unfold UnmarshalBinary. rewrite H. reflexivity.
Qed.

(** X19.  No operation changes the shape of a filter: after any sequence of
    [Add], [TestAndAdd], [TestOrAdd] and [Merge] on a filter of the data
    model, none of them having panicked, the filter is of the data model and
    has the [m], the [k], the bitset size and the number of words it had. *)
Theorem operations_keep_shape (baseHashes : list byte -> hashes)
    (f : BloomFilter) (os : list op) :
  wf f = true -> forallb op_wf os = true ->
  exists f',
    run_ops baseHashes f os = Ok f'
    /\ wf f' = true
    /\ Cap f' = Cap f /\ K f' = K f
    /\ bs_size (BitSet f') = bs_size (BitSet f)
    /\ length (bs_data (BitSet f')) = length (bs_data (BitSet f)).
Proof.
  intros Hwf Hos.
  destruct (run_ops_spec baseHashes os f Hwf Hos) as (f' & Hrun & Hwf' & Hm & Hk & _).
  exists f'. split; [assumption|]. split; [assumption|].
  split; [assumption|]. split; [assumption|].
  destruct (proj1 (wf_spec f) Hwf) as (_ & _ & Hs & Hb).
  destruct (proj1 (wf_spec f') Hwf') as (_ & _ & Hs' & Hb').
  apply bs_wf_spec in Hb, Hb'. destruct Hb as (_ & Hl & _), Hb' as (_ & Hl' & _).
  unfold BitSet. split; [congruence|].
  apply Nat2Z.inj. rewrite <- Hl, <- Hl', Hs, Hs', Hm. reflexivity.
Qed.

(** X20.  The three ways of inserting a key leave the same filter: on a
    filter of the data model [TestAndAdd(x)] and [TestOrAdd(x)] leave exactly
    the filter that [Add(x)] leaves, and both return what [Test(x)] returned
    before. *)
Theorem insertions_agree (baseHashes : list byte -> hashes)
    (f : BloomFilter) (x : list byte) :
  wf f = true ->
  exists present f',
    Test baseHashes f x = Ok present
    /\ Add baseHashes f x = Ok f'
    /\ TestAndAdd baseHashes f x = Ok (present, f')
    /\ TestOrAdd baseHashes f x = Ok (present, f').
Proof.
  intros Hwf.
  destruct (TestAndAdd_spec baseHashes f x Hwf) as (p & f' & Ht & Htaa & Hadd).
  destruct (wf_facts f Hwf) as (_ & _ & _ & Hws).
  exists p, f'. rewrite (TestOrAdd_TestAndAdd baseHashes f x Hws). tauto.
Qed.

(** ** The further properties at concrete inputs *)

Lemma Set_then_Test_witness :
  let bs := newAtomicBitSet 100 in
  (bs_wf bs = true /\ 0 <= 70 < bs_size bs /\ 0 <= 5)
  /\ exists bs',
       bs_Set bs 70 = Ok bs'
       /\ bs_Test bs' 70 = Ok true
       /\ (5 <> 70 -> bs_Test bs' 5 = bs_Test bs 5).
Proof.
  split; [by_eval|].
  apply (Set_then_Test (newAtomicBitSet 100) 70 5); by_eval.
Defined.

Lemma InPlaceUnion_word_counts_witness :
  bs_InPlaceUnion {| bs_data := [1; 2]; bs_size := 128 |}
                  {| bs_data := [4]; bs_size := 64 |}
  = Panic IndexOutOfRange
  /\ bs_InPlaceUnion {| bs_data := [1]; bs_size := 64 |}
                     {| bs_data := [4; 8]; bs_size := 128 |}
     = Ok {| bs_data := zip_with Z.lor [1] [4; 8]; bs_size := 64 |}.
Proof.
  split.
  - apply (proj1 (InPlaceUnion_word_counts {| bs_data := [1; 2]; bs_size := 128 |}
                    {| bs_data := [4]; bs_size := 64 |})). simpl. lia.
  - apply (proj2 (InPlaceUnion_word_counts {| bs_data := [1]; bs_size := 64 |}
                    {| bs_data := [4; 8]; bs_size := 128 |})). simpl. lia.
Defined.

Lemma From_keeps_words_witness :
  let data := [5; -1] in
  Z.of_nat (length data) < 2 ^ 57
  /\ Cap (From data 0) = 64 * Z.of_nat (length data)
  /\ K (From data 0) = Z.max 1 0
  /\ bs_data (BitSet (From data 0)) = data
  /\ bs_size (BitSet (From data 0)) = 64 * Z.of_nat (length data).
Proof.
  split; [by_eval|]. apply (From_keeps_words [5; -1] 0). by_eval.
Defined.

Lemma Add_of_present_key_witness :
  let f := FromWithM [-1; -1] 100 3 in
  let x := [x61] in
  (wf f = true /\ Test sample_hashes f x = Ok true)
  /\ Add sample_hashes f x = Ok f
  /\ TestAndAdd sample_hashes f x = Ok (true, f)
  /\ TestOrAdd sample_hashes f x = Ok (true, f).
Proof.
  split; [by_eval|].
  apply (Add_of_present_key sample_hashes (FromWithM [-1; -1] 100 3) [x61]); by_eval.
Defined.

Lemma Add_idempotent_commutative_witness :
  let f := New 100 3 in
  wf f = true
  /\ exists fx fy fxy,
       Add sample_hashes f [x61] = Ok fx
       /\ Add sample_hashes fx [x61] = Ok fx
       /\ Add sample_hashes f [x62] = Ok fy
       /\ Add sample_hashes fx [x62] = Ok fxy
       /\ Add sample_hashes fy [x61] = Ok fxy.
Proof.
  split; [by_eval|].
  apply (Add_idempotent_commutative sample_hashes (New 100 3) [x61] [x62]). by_eval.
Defined.

Lemma Merge_of_Add_witness :
  let f := New 100 3 in
  let g := FromWithM [5] 100 3 in
  (wf f = true /\ wf g = true /\ bf_m f = bf_m g /\ bf_k f = bf_k g)
  /\ exists gx fg fgx,
       Add sample_hashes g [x61] = Ok gx
       /\ Merge f gx = Ok (None, fgx)
       /\ Merge f g = Ok (None, fg)
       /\ Add sample_hashes fg [x61] = Ok fgx.
Proof.
  split; [by_eval|].
  apply (Merge_of_Add sample_hashes (New 100 3) (FromWithM [5] 100 3) [x61]); by_eval.
Defined.

Lemma Merge_semilattice_witness :
  let f := FromWithM [3] 100 3 in
  let g := FromWithM [5] 100 3 in
  let h := FromWithM [0; 9] 100 3 in
  (wf f = true /\ wf g = true /\ wf h = true
   /\ bf_m f = bf_m g /\ bf_k f = bf_k g /\ bf_m g = bf_m h /\ bf_k g = bf_k h)
  /\ Merge f f = Ok (None, f)
  /\ exists fg gh,
       Merge f g = Ok (None, fg)
       /\ Merge g f = Ok (None, fg)
       /\ Merge g h = Ok (None, gh)
       /\ exists fgh, Merge fg h = Ok (None, fgh) /\ Merge f gh = Ok (None, fgh).
Proof.
  split; [by_eval|].
  apply (Merge_semilattice (FromWithM [3] 100 3) (FromWithM [5] 100 3)
           (FromWithM [0; 9] 100 3)); by_eval.
Defined.


Lemma ClearAll_empties_witness :
  let f := FromWithM [5; -1] 100 3 in
  (wf f = true /\ 1 <= bf_k f)
  /\ wf (ClearAll f) = true
  /\ Cap (ClearAll f) = Cap f /\ K (ClearAll f) = K f
  /\ bs_Count (BitSet (ClearAll f)) = 0
  /\ Test sample_hashes (ClearAll f) [x61] = Ok false
  /\ (bf_m f <= 2 ^ 64 - 64 -> ClearAll f = New (bf_m f) (bf_k f)).
Proof.
  split; [by_eval|].
  apply (ClearAll_empties sample_hashes (FromWithM [5; -1] 100 3) [x61]); by_eval.
Defined.

Lemma Copy_same_bits_witness :
  let f := FromWithM [5; -1] 100 3 in
  (wf f = true /\ bf_m f <= 2 ^ 64 - 64)
  /\ exists c,
       Copy f = Ok c
       /\ Cap c = Cap f /\ K c = Z.max 1 (K f) /\ BitSet c = BitSet f
       /\ (1 <= bf_k f -> c = f /\ Equal c f = true).
Proof.
  split; [by_eval|]. apply (Copy_same_bits (FromWithM [5; -1] 100 3)); by_eval.
Defined.


Lemma Set_raises_Count_witness :
  let bs := fromAtomicBitSet [5; -1] 100 in
  (bs_wf bs = true /\ bs_size bs <= 2 ^ 64 - 64 /\ 0 <= 1 < bs_size bs)
  /\ exists bs',
       bs_Set bs 1 = Ok bs'
       /\ bs_Count bs' = bs_Count bs + (if bs_bit bs 1 then 0 else 1)
       /\ bs_Count bs = ones_total (bs_data bs)
       /\ 0 <= bs_Count bs <= 64 * Z.of_nat (length (bs_data bs)).
Proof.
  split; [by_eval|].
  apply (Set_raises_Count (fromAtomicBitSet [5; -1] 100) 1); by_eval.
Defined.

Lemma WriteTo_ReadFrom_counts_witness :
  let f := FromWithM [5; -7] 100 3 in
  let n := 32 + 8 * Z.of_nat (length (bs_data (bf_b f))) in
  (bf_typed f = true /\ Z.of_nat (length (bs_data (bf_b f))) < 2 ^ 59)
  /\ exists bytes,
       Z.of_nat (length bytes) = n
       /\ WriteTo f [x01] = ([x01] ++ bytes, n, None)
       /\ ReadFrom (New 1 1) (bytes ++ [x02]) = Ok (f, [x02], n, None).
Proof.
  split; [by_eval|].
  apply (WriteTo_ReadFrom_counts (FromWithM [5; -7] 100 3) (New 1 1) [x01] [x02]);
    by_eval.
Defined.

Lemma ReadFrom_in_sequence_witness :
  let f1 := FromWithM [5; -7] 100 3 in
  let f2 := New 1 1 in
  (bf_typed f1 = true /\ bf_typed f2 = true
   /\ Z.of_nat (length (bs_data (bf_b f1))) < 2 ^ 59
   /\ Z.of_nat (length (bs_data (bf_b f2))) < 2 ^ 59)
  /\ exists s1 s2 n1 n2 rest,
       WriteTo f1 [] = (s1, n1, None)
       /\ WriteTo f2 s1 = (s2, n2, None)
       /\ ReadFrom (New 9 9) s2 = Ok (f1, rest, n1, None)
       /\ ReadFrom (New 9 9) rest = Ok (f2, [], n2, None).
Proof.
  split; [by_eval|].
  apply (ReadFrom_in_sequence (FromWithM [5; -7] 100 3) (New 1 1) (New 9 9) (New 9 9));
    by_eval.
Defined.

Lemma MarshalBinary_injective_witness :
  let f := FromWithM [5; -7] 100 3 in
  let g := New 100 3 in
  (bf_typed f = true /\ bf_typed g = true)
  /\ (exists bytes,
        MarshalBinary f = (bytes, None) /\ GobEncode f = (bytes, None)
        /\ UnmarshalBinary (New 9 9) bytes = Ok (f, None)
        /\ GobDecode (New 9 9) bytes = Ok (f, None))
  /\ (MarshalBinary f = MarshalBinary g -> f = g).
Proof.
  split; [by_eval|].
  apply (MarshalBinary_injective (FromWithM [5; -7] 100 3) (New 100 3) (New 9 9));
    by_eval.
Defined.

Lemma ReadFrom_huge_word_count_witness :
  let header := PutUint64 64 ++ PutUint64 1 ++ PutUint64 64 ++ PutUint64 (2 ^ 63) in
  (0 <= 64 < 2 ^ 64 /\ 0 <= 1 < 2 ^ 64 /\ 0 <= 64 < 2 ^ 64
   /\ 2 ^ 63 <= 2 ^ 63 < 2 ^ 64)
  /\ ReadFrom (New 1 1) (header ++ []) = Panic MakeSliceLenOutOfRange
  /\ UnmarshalBinary (New 1 1) (header ++ []) = Panic MakeSliceLenOutOfRange.
Proof.
  split; [by_eval|].
  apply (ReadFrom_huge_word_count (New 1 1) 64 1 64 (2 ^ 63) []); by_eval.
Defined.

Lemma operations_keep_shape_witness :
  let f := FromWithM [5] 100 3 in
  let os := [OpAdd [x62]; OpMerge (New 100 3); OpTestOrAdd [x63];
             OpTestAndAdd [x61]; OpMerge (New 7 3)] in
  (wf f = true /\ forallb op_wf os = true)
  /\ exists f',
       run_ops sample_hashes f os = Ok f'
       /\ wf f' = true
       /\ Cap f' = Cap f /\ K f' = K f
       /\ bs_size (BitSet f') = bs_size (BitSet f)
       /\ length (bs_data (BitSet f')) = length (bs_data (BitSet f)).
Proof.
  split; [by_eval|].
  apply (operations_keep_shape sample_hashes (FromWithM [5] 100 3)); by_eval.
Defined.

Lemma insertions_agree_witness :
  let f := FromWithM [5] 100 3 in
  wf f = true
  /\ exists present f',
       Test sample_hashes f [x61] = Ok present
       /\ Add sample_hashes f [x61] = Ok f'
       /\ TestAndAdd sample_hashes f [x61] = Ok (present, f')
       /\ TestOrAdd sample_hashes f [x61] = Ok (present, f').
Proof.
  split; [by_eval|].
  apply (insertions_agree sample_hashes (FromWithM [5] 100 3) [x61]). by_eval.
Defined.
